(** * Budget_Opt: the marketing-budget environment and its PPO agent

    A shallow embedding of [Optimization_way_algo.ipynb]:
    - [MarketingEnv] ([__init__], [reset], [step]),
    - [PPOAgent] ([compute_advantage], [update]),
    - [ActorNetwork.forward] and [CriticNetwork.forward],
    - the training cell and the report on the return on investment.

    Numbers.  The notebook computes with IEEE-754 floats.  Here a number
    is an exact rational extended with the three IEEE special values
    ([PInf], [NInf], [NaN]); finite values are added, multiplied and
    divided exactly, so rounding and the sign of zero are abstracted, while
    the special values behave as IEEE prescribes (0/0 is NaN, x/0 is an
    infinity, NaN propagates).  Statements "within floating-point
    tolerance" are therefore read as equalities of exact values.

    Control.  A Python call either returns or raises; calls are embedded in
    the outcome monad [py].

    Randomness.  The Dirichlet draw of [reset] is an explicit argument. *)

From Stdlib Require Import QArith Qminmax Reals Psatz List Bool Lia.
Import ListNotations.

Set Implicit Arguments.

(* ================================================================== *)
(** * Part I: definitions *)
(* ================================================================== *)

(** ** Numbers *)

Inductive num : Type :=
| Fin (q : Q)
| PInf
| NInf
| NaN.

Declare Scope num_scope.
Delimit Scope num_scope with num.
Bind Scope num_scope with num.

(** The infinity (or NaN) that carries the sign [c] of a finite value:
    [Gt] is positive, [Lt] negative, [Eq] zero. *)
Definition inf_of_sign (c : comparison) : num :=
  match c with
  | Gt => PInf
  | Lt => NInf
  | Eq => NaN
  end.

Definition is_nan (a : num) : bool :=
  match a with NaN => true | _ => false end.

Definition is_finite (a : num) : bool :=
  match a with Fin _ => true | _ => false end.

Definition nadd (a b : num) : num :=
  match a, b with
  | NaN, _ | _, NaN => NaN
  | Fin x, Fin y => Fin (x + y)
  | PInf, NInf | NInf, PInf => NaN
  | PInf, _ | _, PInf => PInf
  | NInf, _ | _, NInf => NInf
  end.

Definition nneg (a : num) : num :=
  match a with
  | Fin x => Fin (- x)
  | PInf => NInf
  | NInf => PInf
  | NaN => NaN
  end.

Definition nsub (a b : num) : num :=
  match a, b with
  | NaN, _ | _, NaN => NaN
  | Fin x, Fin y => Fin (x - y)
  | PInf, PInf | NInf, NInf => NaN
  | PInf, _ | _, NInf => PInf
  | NInf, _ | _, PInf => NInf
  end.

Definition nmul (a b : num) : num :=
  match a, b with
  | NaN, _ | _, NaN => NaN
  | Fin x, Fin y => Fin (x * y)
  | Fin x, PInf | PInf, Fin x => inf_of_sign (x ?= 0)
  | Fin x, NInf | NInf, Fin x => inf_of_sign (CompOpp (x ?= 0))
  | PInf, PInf | NInf, NInf => PInf
  | PInf, NInf | NInf, PInf => NInf
  end.

(** Division.  A finite value divided by zero is NaN when it is zero
    itself and an infinity of its own sign otherwise (zero counts as
    [+0]). *)
Definition ndiv (a b : num) : num :=
  match a, b with
  | NaN, _ | _, NaN => NaN
  | Fin x, Fin y => if Qeq_bool y 0 then inf_of_sign (x ?= 0) else Fin (x / y)
  | Fin _, PInf | Fin _, NInf => Fin 0
  | PInf, Fin y => if Qle_bool 0 y then PInf else NInf
  | NInf, Fin y => if Qle_bool 0 y then NInf else PInf
  | _, _ => NaN
  end.

(** Comparison; every comparison with NaN is false. *)
Definition nle (a b : num) : bool :=
  match a, b with
  | NaN, _ | _, NaN => false
  | Fin x, Fin y => Qle_bool x y
  | NInf, _ | _, PInf => true
  | _, _ => false
  end.

(** [np.maximum] / [torch.max] and [torch.min] of two values: NaN wins,
    otherwise the larger (smaller) operand. *)
Definition nmax (a b : num) : num :=
  if is_nan a then a else if is_nan b then b else if nle b a then a else b.

Definition nmin (a b : num) : num :=
  if is_nan a then a else if is_nan b then b else if nle a b then a else b.

(** [torch.clamp(x, lo, hi)] = [min(max(x, lo), hi)]. *)
Definition clamp (x lo hi : num) : num := nmin (nmax x lo) hi.

(** Two numbers denote the same value. *)
Definition num_eq (a b : num) : Prop :=
  match a, b with
  | Fin x, Fin y => x == y
  | PInf, PInf | NInf, NInf | NaN, NaN => True
  | _, _ => False
  end.

Definition num_eqb (a b : num) : bool :=
  match a, b with
  | Fin x, Fin y => Qeq_bool x y
  | PInf, PInf | NInf, NInf | NaN, NaN => true
  | _, _ => false
  end.

Infix "+" := nadd : num_scope.
Infix "-" := nsub : num_scope.
Infix "*" := nmul : num_scope.
Infix "/" := ndiv : num_scope.
Infix "=n=" := num_eq (at level 70, no associativity).

(** Vectors of numbers denoting the same values, entry by entry. *)
Definition vec_eq (a b : list num) : Prop := Forall2 num_eq a b.

(** A vector of finite values. *)
Definition fin_vec (l : list Q) : list num := map Fin l.

(** The sum of a list of rationals. *)
Definition Qsum (l : list Q) : Q := fold_right Qplus 0 l.

(** ** Python outcomes *)

Inductive exn : Type := ValueError | TypeError | RuntimeError.

Inductive py (A : Type) : Type :=
| Ret (a : A)
| Raise (e : exn).

Arguments Raise {A} e.

Definition bind {A B : Type} (m : py A) (k : A -> py B) : py B :=
  match m with
  | Ret a => k a
  | Raise e => Raise e
  end.

Notation "x <- m ;; k" := (bind m (fun x => k))
  (at level 61, m at next level, right associativity).

(** A fallible function applied to every row of a batch, first row first;
    the first failure is the failure of the batch. *)
Fixpoint batch {A B : Type} (f : A -> py B) (rows : list A) : py (list B) :=
  match rows with
  | [] => Ret []
  | x :: rows' =>
      y <- f x ;;
      ys <- batch f rows' ;;
      Ret (y :: ys)
  end.

(** ** The numpy operations of the environment *)

Definition zip_with {A B C : Type} (f : A -> B -> C)
    (a : list A) (b : list B) : list C :=
  map (fun p => f (fst p) (snd p)) (combine a b).

(** [a += b] on a 1-D array [a]: [b] must broadcast to the shape of [a],
    i.e. have the same length or length one. *)
Definition np_iadd (a b : list num) : py (list num) :=
  if (length b =? length a)%nat then Ret (zip_with nadd a b)
  else match b with
       | [y] => Ret (map (fun x => x + y)%num a)
       | _ => Raise ValueError
       end.

(** [np.maximum(a, c)] with a scalar [c]. *)
Definition np_maximum (a : list num) (c : num) : list num :=
  map (fun x => nmax x c) a.

(** [np.sum(a)]: accumulation from zero. *)
Definition np_sum (a : list num) : num := fold_left nadd a (Fin 0).

(** [a / s] and [a * s] with a scalar [s]. *)
Definition np_div (a : list num) (s : num) : list num :=
  map (fun x => x / s)%num a.

Definition np_mul (a : list num) (s : num) : list num :=
  map (fun x => x * s)%num a.

(** [np.dot(a, b)] of two 1-D arrays; mismatched shapes raise. *)
Definition np_dot (a b : list num) : py num :=
  if (length a =? length b)%nat
  then Ret (fold_left nadd (zip_with nmul a b) (Fin 0))
  else Raise ValueError.

(** ** MarketingEnv *)

Module MarketingEnv.

Record t : Type := Build {
  betas : list num;          (* revenue coefficients *)
  budget : num;              (* total marketing budget *)
  num_channels : nat;
  state : list num
}.

Definition set_state (env : t) (s : list num) : t :=
  Build (betas env) (budget env) (num_channels env) s.

(** [reset]: [self.state = dirichlet(ones(num_channels)) * self.budget];
    [draw] is the Dirichlet sample.  Returns the environment and the
    state tensor. *)
Definition reset (env : t) (draw : list num) : py (t * list num) :=
  let s := np_mul draw (budget env) in
  Ret (set_state env s, s).

(** [__init__(betas, budget)]: stores the configuration, then calls
    [reset]. *)
Definition init (betas : list num) (budget : num) (draw : list num)
  : py t :=
  let self := Build betas budget (length betas) [] in
  r <- reset self draw ;;
  Ret (fst r).

(** [step(action_changes)]: returns the environment, the state tensor,
    the revenue and the [done] flag (always [False]). *)
Definition step (env : t) (action_changes : list num)
  : py (t * (list num * num * bool)) :=
  s1 <- np_iadd (state env) action_changes ;;
  let s2 := np_maximum s1 (Fin 0) in
  let s3 := np_mul (np_div s2 (np_sum s2)) (budget env) in
  revenue <- np_dot (betas env) s3 ;;
  Ret (set_state env s3, (s3, revenue, false)).

(** The shape [__init__] establishes: one coefficient and one state entry
    per channel. *)
Definition well_formed (env : t) : bool :=
  (length (betas env) =? num_channels env)%nat
  && (length (state env) =? num_channels env)%nat.

End MarketingEnv.

(** What [np.random.dirichlet(np.ones(n))] returns: [n] non-negative
    entries; they sum to one when there is an entry at all, and with
    [n = 0] the sample is the empty array. *)
Definition dirichlet_sample (n : nat) (draw : list num) : bool :=
  (length draw =? n)%nat
  && forallb (fun x => nle (Fin 0) x) draw
  && match n with
     | O => true
     | S _ => num_eqb (np_sum draw) (Fin 1)
     end.

(** Every entry of an allocation vector is at least zero. *)
Definition nonneg (a : list num) : bool := forallb (fun x => nle (Fin 0) x) a.

(** ** Tensors of the agent

    The agent handles 0-d tensors (the result of [squeeze] on a single
    element) and 1-D tensors; a Python list behaves as a 1-D tensor
    wherever the agent uses one. *)

Inductive tensor : Type :=
| Scalar (x : num)
| Vector (xs : list num).

(** [t.squeeze()] of a column of [T] values: a 0-d tensor when [T = 1]. *)
Definition squeeze (col : list num) : tensor :=
  match col with
  | [x] => Scalar x
  | _ => Vector col
  end.

(** [reversed(t)]: [Tensor.__reversed__] returns a 0-d tensor as it is. *)
Definition reversed (t : tensor) : tensor :=
  match t with
  | Scalar x => Scalar x
  | Vector xs => Vector (rev xs)
  end.

(** Iteration, as [zip] starts it: a 0-d tensor cannot be iterated. *)
Definition iter (t : tensor) : py (list num) :=
  match t with
  | Scalar _ => Raise TypeError
  | Vector xs => Ret xs
  end.

Definition tmap (f : num -> num) (t : tensor) : tensor :=
  match t with
  | Scalar x => Scalar (f x)
  | Vector xs => Vector (map f xs)
  end.

(** Elementwise binary operation with broadcasting. *)
Definition broadcast2 (f : num -> num -> num) (a b : tensor) : py tensor :=
  match a, b with
  | Scalar x, Scalar y => Ret (Scalar (f x y))
  | Scalar x, Vector ys => Ret (Vector (map (f x) ys))
  | Vector xs, Scalar y => Ret (Vector (map (fun x => f x y) xs))
  | Vector xs, Vector ys =>
      if (length xs =? length ys)%nat then Ret (Vector (zip_with f xs ys))
      else match xs, ys with
           | [x], _ => Ret (Vector (map (f x) ys))
           | _, [y] => Ret (Vector (map (fun x => f x y) xs))
           | _, _ => Raise RuntimeError
           end
  end.

Definition of_nat (n : nat) : num := Fin (inject_Z (Z.of_nat n)).

(** [t.mean()]: the sum divided by the number of elements. *)
Definition tmean (t : tensor) : num :=
  match t with
  | Scalar x => x
  | Vector xs => (np_sum xs / of_nat (length xs))%num
  end.

(** [probs.gather(1, actions.unsqueeze(1))]: for each row the entry at the
    chosen index; the index tensor may not have more rows than [probs],
    and an index outside a row raises. *)
Fixpoint gather (probs : list (list num)) (actions : list nat)
    {struct actions} : py (list num) :=
  match actions, probs with
  | [], _ => Ret []
  | _ :: _, [] => Raise RuntimeError
  | a :: actions', row :: probs' =>
      match nth_error row a with
      | None => Raise RuntimeError
      | Some p => rest <- gather probs' actions' ;; Ret (p :: rest)
      end
  end.

(** ** PPOAgent *)

Module PPOAgent.

(** One iteration of the loop of [compute_advantage]:
    [G = r + gamma * G; returns.insert(0, G); advantages.insert(0, G - v)]. *)
Definition advantage_step (gamma : num)
    (acc : num * list num * list num) (rv : num * num)
  : num * list num * list num :=
  let '(G, advantages, returns) := acc in
  let '(r, v) := rv in
  let G' := (r + gamma * G)%num in
  (G', (G' - v)%num :: advantages, G' :: returns).

(** [compute_advantage(rewards, values)]: the loop runs over
    [zip(reversed(rewards), reversed(values))] from [G = 0]. *)
Definition compute_advantage (gamma : num) (rewards values : tensor)
  : py (tensor * tensor) :=
  rs <- iter (reversed rewards) ;;
  vs <- iter (reversed values) ;;
  let '(_, advantages, returns) :=
    fold_left (advantage_step gamma) (combine rs vs) (Fin 0, [], []) in
  Ret (Vector advantages, Vector returns).

(** The clipped objective of [update]:
<<
    ratio = new_probs / old_probs
    surrogate1 = ratio * advantages
    surrogate2 = torch.clamp(ratio, 1 - eps, 1 + eps) * advantages
    actor_loss = -torch.min(surrogate1, surrogate2).mean()
>> *)
Definition actor_loss (epsilon : num)
    (new_probs old_probs advantages : tensor) : py num :=
  ratio <- broadcast2 ndiv new_probs old_probs ;;
  surrogate1 <- broadcast2 nmul ratio advantages ;;
  surrogate2 <- broadcast2 nmul
    (tmap (fun r => clamp r (Fin 1 - epsilon) (Fin 1 + epsilon)) ratio)
    advantages ;;
  m <- broadcast2 nmin surrogate1 surrogate2 ;;
  Ret (nneg (tmean m)).

(** [critic_loss = (returns - values).pow(2).mean()]. *)
Definition critic_loss (returns values : tensor) : py num :=
  d <- broadcast2 nsub returns values ;;
  Ret (tmean (tmap (fun x => x * x)%num d)).

(** What the agent takes from torch: the two networks as functions of
    their parameters and of one state, which raise on a state they do not
    accept (a [Linear] layer raises [RuntimeError] on an input of the
    wrong width); reverse-mode differentiation of a loss with respect to
    the parameters of one network, accumulation into a [.grad] buffer and
    the step of an optimizer over the parameters of one network. *)
Class Torch : Type := {
  ActorP : Type;           (* parameters of the actor *)
  CriticP : Type;          (* parameters of the critic *)
  ActorG : Type;           (* gradients of the actor's parameters *)
  CriticG : Type;
  ActorOpt : Type;         (* state of the actor's optimizer *)
  CriticOpt : Type;
  actor_forward : ActorP -> list num -> py (list num);
  critic_forward : CriticP -> list num -> py num;
  actor_autograd : (ActorP -> py num) -> ActorP -> ActorG;
  critic_autograd : (CriticP -> py num) -> CriticP -> CriticG;
  actor_accumulate : ActorG -> ActorG -> ActorG;
  critic_accumulate : CriticG -> CriticG -> CriticG;
  actor_optimizer_step : ActorOpt -> ActorP -> ActorG -> ActorP * ActorOpt;
  critic_optimizer_step :
    CriticOpt -> CriticP -> CriticG -> CriticP * CriticOpt
}.

Section Agent.

Context {torch : Torch}.

Record t : Type := Build {
  actor : ActorP;
  actor_grad : option ActorG;          (* the [.grad] of the actor *)
  actor_optimizer : ActorOpt;
  critic : CriticP;
  critic_grad : option CriticG;
  critic_optimizer : CriticOpt;
  gamma : num;
  epsilon : num
}.

(** A loss with its computation graph: what [backward] adds to the
    [.grad] of each network ([None] when the graph does not reach the
    parameters of that network). *)
Record loss : Type := Loss {
  value : num;
  to_actor : option ActorG;
  to_critic : option CriticG
}.

Definition accumulate {G : Type} (add : G -> G -> G)
    (buffer contribution : option G) : option G :=
  match buffer, contribution with
  | b, None => b
  | None, Some g => Some g
  | Some b, Some g => Some (add b g)
  end.

(** [optimizer.zero_grad()]: the gradients of the optimizer's own
    parameters are dropped. *)
Definition actor_zero_grad (a : t) : t :=
  Build (actor a) None (actor_optimizer a)
        (critic a) (critic_grad a) (critic_optimizer a) (gamma a) (epsilon a).

Definition critic_zero_grad (a : t) : t :=
  Build (actor a) (actor_grad a) (actor_optimizer a)
        (critic a) None (critic_optimizer a) (gamma a) (epsilon a).

(** [l.backward()]: gradients are accumulated into the [.grad] of every
    parameter the graph of [l] reaches. *)
Definition backward (l : loss) (a : t) : t :=
  Build (actor a) (accumulate actor_accumulate (actor_grad a) (to_actor l))
        (actor_optimizer a)
        (critic a) (accumulate critic_accumulate (critic_grad a) (to_critic l))
        (critic_optimizer a) (gamma a) (epsilon a).

(** [optimizer.step()]: one step over the optimizer's own parameters;
    parameters without a gradient are left alone. *)
Definition actor_step (a : t) : t :=
  match actor_grad a with
  | None => a
  | Some g =>
      let '(p, o) := actor_optimizer_step (actor_optimizer a) (actor a) g in
      Build p (actor_grad a) o
            (critic a) (critic_grad a) (critic_optimizer a)
            (gamma a) (epsilon a)
  end.

Definition critic_step (a : t) : t :=
  match critic_grad a with
  | None => a
  | Some g =>
      let '(p, o) := critic_optimizer_step (critic_optimizer a) (critic a) g in
      Build (actor a) (actor_grad a) (actor_optimizer a)
            p (critic_grad a) o (gamma a) (epsilon a)
  end.

(** The backpropagation block of [update]:
<<
    self.actor_optimizer.zero_grad(); actor_loss.backward()
    self.actor_optimizer.step()
    self.critic_optimizer.zero_grad(); critic_loss.backward()
    self.critic_optimizer.step()
>> *)
Definition optimize (l_actor l_critic : loss) (a : t) : t :=
  critic_step (backward l_critic (critic_zero_grad
    (actor_step (backward l_actor (actor_zero_grad a))))).

(** [self.critic(states).squeeze()]; [states], the 2-D tensor of the
    trajectory, is the list of its rows, and a network is applied to it
    row by row. *)
Definition critic_values (p : CriticP) (states : list (list num))
  : py tensor :=
  col <- batch (critic_forward p) states ;;
  Ret (squeeze col).

(** [self.actor(states).gather(1, actions.unsqueeze(1)).squeeze()] *)
Definition new_probs (p : ActorP) (states : list (list num))
    (actions : list nat) : py tensor :=
  probs <- batch (actor_forward p) states ;;
  g <- gather probs actions ;;
  Ret (squeeze g).

(** The actor loss as a function of the actor's parameters, the
    advantages being constants (they are rebuilt by [torch.tensor] in
    [compute_advantage], so they carry no graph). *)
Definition actor_objective (eps : num) (states : list (list num))
    (actions : list nat) (old_probs advantages : tensor) (p : ActorP)
  : py num :=
  np <- new_probs p states actions ;;
  actor_loss eps np old_probs advantages.

(** The critic loss as a function of the critic's parameters, the returns
    being constants. *)
Definition critic_objective (states : list (list num)) (returns : tensor)
    (p : CriticP) : py num :=
  values <- critic_values p states ;;
  critic_loss returns values.

(** [update(states, actions, rewards, old_probs)] *)
Definition update (a : t) (states : list (list num)) (actions : list nat)
    (rewards old_probs : tensor) : py t :=
  values <- critic_values (critic a) states ;;
  ar <- compute_advantage (gamma a) rewards values ;;
  let '(advantages, returns) := ar in
  let f_actor := actor_objective (epsilon a) states actions old_probs
                   advantages in
  let f_critic := critic_objective states returns in
  l_actor <- f_actor (actor a) ;;
  l_critic <- critic_loss returns values ;;
  Ret (optimize
         (Loss l_actor (Some (actor_autograd f_actor (actor a))) None)
         (Loss l_critic None (Some (critic_autograd f_critic (critic a))))
         a).

End Agent.

End PPOAgent.

(** ** ActorNetwork

    The softmax needs the exponential, so the network is embedded over the
    real numbers: parameters, inputs and activations are finite reals. *)

Module ActorNetwork.

Local Open Scope R_scope.

(** [nn.Linear(in, out)]: [out] rows of [in] weights, and [out] biases. *)
Record Linear : Type := MkLinear {
  weight : list (list R);
  bias : list R
}.

Record t : Type := Build {
  fc1 : Linear;
  fc2 : Linear;
  fc3 : Linear
}.

Definition hidden : nat := 64.

(** The shapes [__init__(state_dim)] gives the three layers. *)
Definition linear_shape (n_in n_out : nat) (l : Linear) : bool :=
  (length (weight l) =? n_out)%nat
  && (length (bias l) =? n_out)%nat
  && forallb (fun row => (length row =? n_in)%nat) (weight l).

Definition shape (state_dim : nat) (net : t) : bool :=
  linear_shape state_dim hidden (fc1 net)
  && linear_shape hidden hidden (fc2 net)
  && linear_shape hidden state_dim (fc3 net).

Definition Rsum (l : list R) : R := fold_right Rplus 0 l.

Definition Rdot (a b : list R) : R := Rsum (zip_with Rmult a b).

(** [layer(x) = x W^T + b]; an input of the wrong width raises. *)
Definition linear (l : Linear) (x : list R) : py (list R) :=
  if forallb (fun row => (length row =? length x)%nat) (weight l)
  then Ret (zip_with (fun row b => Rdot row x + b) (weight l) (bias l))
  else Raise RuntimeError.

Definition relu (l : list R) : list R := map (Rmax 0) l.

(** [torch.softmax(z, dim=-1)]: [exp(z_i) / sum_j exp(z_j)]. *)
Definition softmax (z : list R) : list R :=
  let e := map exp z in
  map (fun a => a / Rsum e) e.

(** [forward(state)] *)
Definition forward (net : t) (state : list R) : py (list R) :=
  x1 <- linear (fc1 net) state ;;
  x2 <- linear (fc2 net) (relu x1) ;;
  x3 <- linear (fc3 net) (relu x2) ;;
  Ret (softmax x3).

(** A network all of whose weights are [w] and biases [b]. *)
Definition constant_layer (n_in n_out : nat) (w b : R) : Linear :=
  MkLinear (repeat (repeat w n_in) n_out) (repeat b n_out).

Definition constant_net (state_dim : nat) (w b : R) : t :=
  Build (constant_layer state_dim hidden w b)
        (constant_layer hidden hidden w b)
        (constant_layer hidden state_dim w b).

End ActorNetwork.

(** ** The specification's formulas *)

Module Spec.

(** The discounted returns of the specification: [G_t = r_t + gamma *
    G_(t+1)], with zero after the last step. *)
Fixpoint returns (gamma : num) (rewards : list num) : list num :=
  match rewards with
  | [] => []
  | r :: rest =>
      let later := returns gamma rest in
      (r + gamma * hd (Fin 0) later)%num :: later
  end.

(** The advantages of the specification: [G_t - v_t]. *)
Definition advantages (gamma : num) (rewards values : list num) : list num :=
  zip_with nsub (returns gamma rewards) values.

(** The clipped surrogate of one step of the trajectory:
    [min(ratio * A, clip(ratio, 1 - eps, 1 + eps) * A)]. *)
Definition surrogate (eps ratio advantage : num) : num :=
  nmin (ratio * advantage)%num
       (clamp ratio (Fin 1 - eps)%num (Fin 1 + eps)%num * advantage)%num.

(** The mean of a sequence of numbers. *)
Definition mean (l : list num) : num :=
  (fold_left nadd l (Fin 0) / of_nat (length l))%num.

(** The actor loss of the specification: the negative mean over the steps
    of the clipped surrogate, the ratio of a step being its new
    probability over its old one. *)
Fixpoint surrogates (eps : num) (new_probs old_probs advantages : list num)
  : list num :=
  match new_probs, old_probs, advantages with
  | p :: ps, q :: qs, a :: advs =>
      surrogate eps (p / q)%num a :: surrogates eps ps qs advs
  | _, _, _ => []
  end.

Definition actor_loss (eps : num) (new_probs old_probs advantages : list num)
  : num :=
  nneg (mean (surrogates eps new_probs old_probs advantages)).

End Spec.

(** ** A small instance of the torch interface

    Used to run the agent on concrete trajectories over two channels: the
    actor is a table of probabilities it returns for every state of two
    entries, the critic a constant on such states, and both raise on a
    state of another width; gradients are finite differences and both
    optimizers do plain gradient descent with a learning rate. *)

Module Toy.

(** [y] on a state of [n] entries, the error of a [Linear] layer on a
    state of another width. *)
Definition on_width {A : Type} (n : nat) (state : list num) (y : A) : py A :=
  if (length state =? n)%nat then Ret y else Raise RuntimeError.

Definition py_value (m : py num) : num :=
  match m with
  | Ret x => x
  | Raise _ => NaN
  end.

(** [p] with one added to its entry [i]. *)
Fixpoint bump (i : nat) (p : list num) : list num :=
  match p, i with
  | [], _ => []
  | x :: p', O => (x + Fin 1)%num :: p'
  | x :: p', S j => x :: bump j p'
  end.

Definition table_gradient (f : list num -> py num) (p : list num)
  : list num :=
  map (fun i => (py_value (f (bump i p)) - py_value (f p))%num)
      (seq 0 (length p)).

Definition constant_gradient (f : num -> py num) (c : num) : num :=
  ((py_value (f (c + Fin 1)) - py_value (f (c - Fin 1))) / Fin 2)%num.

Definition descend (lr : num) (p g : list num) : list num * num :=
  (zip_with (fun x d => x - lr * d)%num p g, lr).

#[local] Instance torch : PPOAgent.Torch := {|
  PPOAgent.ActorP := list num;
  PPOAgent.CriticP := num;
  PPOAgent.ActorG := list num;
  PPOAgent.CriticG := num;
  PPOAgent.ActorOpt := num;
  PPOAgent.CriticOpt := num;
  PPOAgent.actor_forward := fun p state => on_width 2 state p;
  PPOAgent.critic_forward := fun c state => on_width 2 state c;
  PPOAgent.actor_autograd := table_gradient;
  PPOAgent.critic_autograd := constant_gradient;
  PPOAgent.actor_accumulate := zip_with nadd;
  PPOAgent.critic_accumulate := nadd;
  PPOAgent.actor_optimizer_step := descend;
  PPOAgent.critic_optimizer_step :=
    fun lr c g => ((c - lr * g)%num, lr)
|}.

(** An agent with two actions, learning rate [1/10], and the defaults
    [gamma = 0.99] and [epsilon = 0.2]. *)
Definition agent : PPOAgent.t :=
  PPOAgent.Build (fin_vec [1#2; 1#2]) None (Fin (1#10))
                 (Fin 1) None (Fin (1#10)) (Fin (99#100)) (Fin (1#5)).

(** A trajectory of three steps over two channels. *)
Definition states : list (list num) :=
  [fin_vec [60; 40]; fin_vec [50; 50]; fin_vec [30; 70]].

Definition actions : list nat := [0%nat; 1%nat; 1%nat].

Definition rewards : list num := fin_vec [3; 5; 2].

Definition old_probs : list num := fin_vec [1#2; 1#4; 1#2].

End Toy.

(** ** CriticNetwork

    The same two hidden layers as the actor, and a last layer with a
    single output that is returned as it is. *)

Module CriticNetwork.

Local Open Scope R_scope.

Record t : Type := Build {
  fc1 : ActorNetwork.Linear;
  fc2 : ActorNetwork.Linear;
  fc3 : ActorNetwork.Linear
}.

(** The shapes [__init__(state_dim)] gives the three layers. *)
Definition shape (state_dim : nat) (net : t) : bool :=
  ActorNetwork.linear_shape state_dim ActorNetwork.hidden (fc1 net)
  && ActorNetwork.linear_shape ActorNetwork.hidden ActorNetwork.hidden
       (fc2 net)
  && ActorNetwork.linear_shape ActorNetwork.hidden 1 (fc3 net).

(** [forward(state)] *)
Definition forward (net : t) (state : list R) : py (list R) :=
  x1 <- ActorNetwork.linear (fc1 net) state ;;
  x2 <- ActorNetwork.linear (fc2 net) (ActorNetwork.relu x1) ;;
  ActorNetwork.linear (fc3 net) (ActorNetwork.relu x2).

Definition constant_net (state_dim : nat) (w b : R) : t :=
  Build (ActorNetwork.constant_layer state_dim ActorNetwork.hidden w b)
        (ActorNetwork.constant_layer ActorNetwork.hidden ActorNetwork.hidden
           w b)
        (ActorNetwork.constant_layer ActorNetwork.hidden 1 w b).

End CriticNetwork.

(** The actor with [c] added to every bias of its last layer. *)
Definition shift_output_bias (c : R) (net : ActorNetwork.t) : ActorNetwork.t :=
  ActorNetwork.Build (ActorNetwork.fc1 net) (ActorNetwork.fc2 net)
    (ActorNetwork.MkLinear
       (ActorNetwork.weight (ActorNetwork.fc3 net))
       (map (fun b => (b + c)%R) (ActorNetwork.bias (ActorNetwork.fc3 net)))).

(** ** Exact sums used to state properties *)

(** The dot product of two lists of rationals. *)
Definition Qdot (a b : list Q) : Q := Qsum (zip_with Qmult a b).

(** The list of [n] rationals that holds [u] at index [a] and zero
    elsewhere (empty tail when [a] is out of range). *)
Fixpoint Qone_hot (n a : nat) (u : Q) : list Q :=
  match n, a with
  | O, _ => []
  | S n', O => u :: repeat 0 n'
  | S n', S a' => 0 :: Qone_hot n' a' u
  end.

(** [r_0 + g r_1 + g^2 r_2 + ...] *)
Definition discounted_sum (g : Q) (l : list Q) : Q :=
  Qsum (map (fun p => g ^ Z.of_nat (fst p) * snd p)
            (combine (seq 0 (length l)) l)).

(** ** The training script

    The cells that build the environment and the agent, run the episodes
    and report the return on investment.  The script also indexes arrays
    and divides Python numbers, so its outcomes extend those of the calls
    by [IndexError] and [ZeroDivisionError].  Every random draw is read
    from an oracle: the Dirichlet sample of each [reset], and the index
    [torch.multinomial] samples and the value [np.random.uniform(-5, 5)]
    returns at each step of each episode. *)

Module Driver.

Inductive failure : Type :=
| Call (e : exn)
| IndexError
| ZeroDivisionError.

Inductive run (A : Type) : Type :=
| Done (a : A)
| Fail (f : failure).

Arguments Fail {A} f.

Definition and_then {A B : Type} (m : run A) (k : A -> run B) : run B :=
  match m with
  | Done a => k a
  | Fail f => Fail f
  end.

Notation "x <~ m ;; k" := (and_then m (fun x => k))
  (at level 61, m at next level, right associativity).

(** The outcome of a call of the environment or the agent. *)
Definition call {A : Type} (m : py A) : run A :=
  match m with
  | Ret a => Done a
  | Raise e => Fail (Call e)
  end.

(** A [for] loop that threads its variables through the iterations. *)
Fixpoint for_each {A S : Type} (body : S -> A -> run S) (l : list A) (s : S)
  : run S :=
  match l with
  | [] => Done s
  | x :: l' => s' <~ body s x ;; for_each body l' s'
  end.

(** [a[i] = v] on a 1-D array. *)
Fixpoint setitem (a : list num) (i : nat) (v : num) : run (list num) :=
  match a, i with
  | [], _ => Fail IndexError
  | _ :: a', O => Done (v :: a')
  | x :: a', S j => a'' <~ setitem a' j v ;; Done (x :: a'')
  end.

(** [a[i]] *)
Definition getitem (a : list num) (i : nat) : run num :=
  match nth_error a i with
  | Some x => Done x
  | None => Fail IndexError
  end.

(** What [torch.multinomial] accepts: finite weights, none negative,
    with a positive sum. *)
Definition multinomial_accepts (probs : list num) : bool :=
  forallb (fun p => is_finite p && nle (Fin 0) p) probs
  && negb (nle (np_sum probs) (Fin 0)).

(** [torch.multinomial(probs, 1).item()], [k] being the sampled index. *)
Definition multinomial (probs : list num) (k : nat) : run nat :=
  if multinomial_accepts probs then Done k else Fail (Call RuntimeError).

Record oracle : Type := Oracle {
  dirichlet_draw : nat -> list num;       (* by episode *)
  choice : nat -> nat -> nat;             (* by episode and step *)
  magnitude : nat -> nat -> num           (* by episode and step *)
}.

(** What the generators return: a point of the simplex, an index below
    the number of weights, a finite value from [-5] to [5]. *)
Definition oracle_step_ok (n : nat) (k : nat) (u : num) : bool :=
  (k <? n)%nat && is_finite u && nle (Fin (-5)) u && nle u (Fin 5).

Definition horizon : nat := 10.
Definition num_episodes : nat := 2000.
Definition default_budget : num := Fin 1000000000.

Section Training.

Context {torch : PPOAgent.Torch}.

(** The lists an episode collects, and its [total_reward]. *)
Record trajectory : Type := Trajectory {
  states : list (list num);
  actions : list nat;
  rewards : list num;
  old_probs : list num;
  total_reward : num
}.

Definition empty_trajectory : trajectory := Trajectory [] [] [] [] (Fin 0).

(** The body of [for t in range(10)]; the loop variables are the
    environment, [state] and the lists. *)
Definition rollout_step (betas : list num) (agent : PPOAgent.t) (o : oracle)
    (episode : nat) (vars : MarketingEnv.t * list num * trajectory) (t : nat)
  : run (MarketingEnv.t * list num * trajectory) :=
  let '(env, state, tr) := vars in
  action_probs <~ call (PPOAgent.actor_forward (PPOAgent.actor agent)
                          state) ;;
  action <~ multinomial action_probs (choice o episode t) ;;
  action_changes <~ setitem (repeat (Fin 0) (length betas)) action
                      (magnitude o episode t) ;;
  r <~ call (MarketingEnv.step env action_changes) ;;
  let '(env', (next_state, reward, _)) := r in
  p <~ getitem action_probs action ;;
  Done (env', next_state,
        Trajectory (states tr ++ [state]) (actions tr ++ [action])
                   (rewards tr ++ [reward]) (old_probs tr ++ [p])
                   (total_reward tr + reward)%num).

(** The body of [for episode in range(num_episodes)]; the loop variables
    are the environment, the agent and the lines printed so far (episode
    and total revenue). *)
Definition episode_body (betas : list num) (o : oracle)
    (vars : MarketingEnv.t * PPOAgent.t * list (nat * num)) (episode : nat)
  : run (MarketingEnv.t * PPOAgent.t * list (nat * num)) :=
  let '(env, agent, printed) := vars in
  r <~ call (MarketingEnv.reset env (dirichlet_draw o episode)) ;;
  let '(env1, state) := r in
  res <~ for_each (rollout_step betas agent o episode) (seq 0 horizon)
           (env1, state, empty_trajectory) ;;
  let '(env2, _, tr) := res in
  agent' <~ call (PPOAgent.update agent (states tr) (actions tr)
                    (Vector (rewards tr)) (Vector (old_probs tr))) ;;
  Done (env2, agent',
        if (episode mod 100 =? 0)%nat
        then printed ++ [(episode, total_reward tr)]
        else printed).

(** The training cell: the environment is built with the default budget
    ([init_draw] is the Dirichlet sample of its constructor), then the
    episodes run. *)
Definition train (betas : list num) (init_draw : list num)
    (agent : PPOAgent.t) (o : oracle)
  : run (MarketingEnv.t * PPOAgent.t * list (nat * num)) :=
  env <~ call (MarketingEnv.init betas default_budget init_draw) ;;
  for_each (episode_body betas o) (seq 0 num_episodes) (env, agent, []).

End Training.

(** The return on investment, in percent. *)
Definition roi (revenue total_budget : num) : num :=
  ((revenue - total_budget) / total_budget * Fin 100)%num.

(** The report cell: initial ROI (uniform allocation of the default
    budget), optimized ROI (allocation [optimized_budget]) and their
    difference. *)
Definition report (betas optimized_budget : list num)
  : run (num * num * num) :=
  match length betas with
  | O => Fail ZeroDivisionError
  | S _ =>
      let initial_budget :=
        repeat (default_budget / of_nat (length betas))%num (length betas) in
      initial_revenue <~ call (np_dot betas initial_budget) ;;
      optimized_revenue <~ call (np_dot betas optimized_budget) ;;
      let total_budget := np_sum initial_budget in
      let initial_ROI := roi initial_revenue total_budget in
      let optimized_ROI := roi optimized_revenue total_budget in
      Done (initial_ROI, optimized_ROI, (optimized_ROI - initial_ROI)%num)
  end.

End Driver.

(** *** What the loops of the training cell keep *)

(** The environment of the training cell: built from [betas] with the
    default budget, with a state of one entry per channel whose entries
    are at least zero and sum to the budget. *)
Definition training_env (betas : list num) (env : MarketingEnv.t) : Prop :=
  MarketingEnv.betas env = betas
  /\ MarketingEnv.budget env = Driver.default_budget
  /\ MarketingEnv.num_channels env = length betas
  /\ length (MarketingEnv.state env) = length betas
  /\ nonneg (MarketingEnv.state env) = true
  /\ np_sum (MarketingEnv.state env) =n= Driver.default_budget.

(** The lists after [n] steps: [n] entries each, every state of [bound]
    entries and every action below [bound]. *)
Definition collected (bound n : nat) (tr : Driver.trajectory) : Prop :=
  length (Driver.states tr) = n
  /\ length (Driver.actions tr) = n
  /\ length (Driver.rewards tr) = n
  /\ length (Driver.old_probs tr) = n
  /\ Forall (fun a => (a < bound)%nat) (Driver.actions tr)
  /\ Forall (fun s => length s = bound) (Driver.states tr).

(** Every printed total revenue is a finite number from [lo] to [hi]. *)
Definition printed_within (lo hi : Q) (printed : list (nat * num)) : Prop :=
  Forall (fun line => exists q, snd line = Fin q /\ lo <= q /\ q <= hi)
         printed.

(** Both networks return on every state of [n] entries, whatever their
    parameters, and the actor returns [n] weights that
    [torch.multinomial] accepts. *)
Definition policy_ok (torch : PPOAgent.Torch) (n : nat) : Prop :=
  forall s, length s = n ->
    (forall p, exists probs,
        PPOAgent.actor_forward p s = Ret probs
        /\ Driver.multinomial_accepts probs = true
        /\ length probs = n)
    /\ (forall c, exists v, PPOAgent.critic_forward c s = Ret v).

(** The generators keep their contracts for [n] channels. *)
Definition oracle_ok (n : nat) (o : Driver.oracle) : Prop :=
  (forall e, dirichlet_sample n (Driver.dirichlet_draw o e) = true)
  /\ (forall e t,
        Driver.oracle_step_ok n (Driver.choice o e t)
          (Driver.magnitude o e t) = true).

(** A policy that gives both of two channels the same weight, whatever
    its parameters and the state of two entries; the rest is as in
    [Toy]. *)
Module Uniform.

#[local] Instance torch : PPOAgent.Torch := {|
  PPOAgent.ActorP := list num;
  PPOAgent.CriticP := num;
  PPOAgent.ActorG := list num;
  PPOAgent.CriticG := num;
  PPOAgent.ActorOpt := num;
  PPOAgent.CriticOpt := num;
  PPOAgent.actor_forward :=
    fun _ state => Toy.on_width 2 state (fin_vec [1#2; 1#2]);
  PPOAgent.critic_forward := fun c state => Toy.on_width 2 state c;
  PPOAgent.actor_autograd := Toy.table_gradient;
  PPOAgent.critic_autograd := Toy.constant_gradient;
  PPOAgent.actor_accumulate := zip_with nadd;
  PPOAgent.critic_accumulate := nadd;
  PPOAgent.actor_optimizer_step := Toy.descend;
  PPOAgent.critic_optimizer_step :=
    fun lr c g => ((c - lr * g)%num, lr)
|}.

Definition agent : PPOAgent.t :=
  PPOAgent.Build (fin_vec [0; 0]) None (Fin (1#10))
                 (Fin 1) None (Fin (1#10)) (Fin (99#100)) (Fin (1#5)).

(** Generators that always return the same draws. *)
Definition oracle : Driver.oracle :=
  Driver.Oracle (fun _ => fin_vec [1#4; 3#4]) (fun _ _ => 1%nat)
                (fun _ _ => Fin (-3)).

End Uniform.

(* ================================================================== *)
(** * Part II: properties *)
(* ================================================================== *)

(** ** Numbers *)

Lemma num_eq_refl (a : num) : a =n= a.
Proof. destruct a; simpl; auto; reflexivity. Qed.

Lemma num_eq_sym (a b : num) : a =n= b -> b =n= a.
Proof. destruct a, b; simpl; auto; intros H; symmetry; exact H. Qed.

Lemma num_eq_trans (a b c : num) : a =n= b -> b =n= c -> a =n= c.
Proof.
  destruct a, b, c; simpl; auto; try contradiction.
  intros H1 H2; rewrite H1; exact H2.
Qed.

Lemma num_eqb_spec (a b : num) : num_eqb a b = true <-> a =n= b.
Proof.
  destruct a, b; simpl; try apply Qeq_bool_iff;
    split; auto; try discriminate; contradiction.
Qed.

Lemma Qeq_bool_false (x y : Q) : ~ x == y -> Qeq_bool x y = false.
Proof.
  intros H; destruct (Qeq_bool x y) eqn:E; auto.
  apply Qeq_bool_iff in E; contradiction.
Qed.

Lemma nadd_compat (a a' b b' : num) :
  a =n= a' -> b =n= b' -> (a + b)%num =n= (a' + b')%num.
Proof.
  destruct a, a', b, b'; simpl; auto; try contradiction.
  intros H1 H2; rewrite H1, H2; reflexivity.
Qed.

Lemma nmul_compat (a a' b b' : num) :
  a =n= a' -> b =n= b' -> (a * b)%num =n= (a' * b')%num.
Proof.
  destruct a, a', b, b'; simpl; auto; try contradiction;
    intros H1 H2;
    try (rewrite H1, H2; reflexivity);
    try (rewrite H1; apply num_eq_refl);
    try (rewrite H2; apply num_eq_refl).
Qed.

Lemma nmul_nan_r (a : num) : (a * NaN)%num = NaN.
Proof. destruct a; reflexivity. Qed.

(** ** Finite vectors *)

Lemma fold_left_nadd_fin (l : list Q) (a : Q) :
  fold_left nadd (fin_vec l) (Fin a) = Fin (fold_left Qplus l a).
Proof.
  revert a; induction l as [|x l IH]; intros a; simpl; auto.
Qed.

Lemma np_sum_fin (l : list Q) : np_sum (fin_vec l) = Fin (fold_left Qplus l 0).
Proof. apply fold_left_nadd_fin. Qed.

Lemma fold_left_Qplus (l : list Q) (a : Q) :
  fold_left Qplus l a == a + Qsum l.
Proof.
  revert a; induction l as [|x l IH]; intros a; simpl.
  - ring.
  - rewrite IH. ring.
Qed.

Lemma Qsum_nonneg (l : list Q) : Forall (fun x => 0 <= x) l -> 0 <= Qsum l.
Proof.
  induction 1 as [|x l Hx _ IH]; simpl; lra.
Qed.

Lemma Qsum_scale (l : list Q) (f : Q -> Q) (c : Q) :
  (forall x, f x == x * c) -> Qsum (map f l) == Qsum l * c.
Proof.
  intros Hf; induction l as [|x l IH]; simpl.
  - ring.
  - rewrite IH, Hf. ring.
Qed.

Lemma nonneg_fin (l : list Q) :
  nonneg (fin_vec l) = true <-> Forall (fun x => 0 <= x) l.
Proof.
  unfold nonneg, fin_vec; rewrite forallb_forall, Forall_forall; split.
  - intros H x Hx. apply Qle_bool_iff. apply (H (Fin x)).
    apply in_map; exact Hx.
  - intros H a Ha. apply in_map_iff in Ha as [x [<- Hx]].
    simpl. apply Qle_bool_iff. auto.
Qed.

(** A vector of entries at least zero has a finite sum only when all its
    entries are finite. *)
Lemma nonneg_acc_finite (l : list num) (a : num) :
  nonneg l = true -> nle (Fin 0) a = true ->
  is_finite (fold_left nadd l a) = true ->
  exists q, l = fin_vec q.
Proof.
  revert a; induction l as [|x l IH]; intros a Hl Ha Hs.
  - exists []; reflexivity.
  - simpl in Hl. apply andb_true_iff in Hl as [Hx Hl]. simpl in Hs.
    destruct x as [qx| | |]; try discriminate.
    + destruct a as [qa| | |]; try discriminate.
      * destruct (IH (Fin (qa + qx)) Hl) as [q Hq]; auto.
        { simpl in *. apply Qle_bool_iff in Hx, Ha.
          apply Qle_bool_iff. lra. }
        exists (qx :: q); simpl; congruence.
      * destruct (IH PInf Hl) as [q Hq]; auto.
        exists (qx :: q); simpl; congruence.
    + exfalso. clear IH Hx.
      assert (Hinf : forall l, nonneg l = true ->
                fold_left nadd l PInf = PInf).
      { clear. induction l as [|y l IH]; simpl; auto.
        intros H. apply andb_true_iff in H as [Hy Hl].
        destruct y; try discriminate; simpl; auto. }
      assert (Hp : (a + PInf)%num = PInf).
      { destruct a; try discriminate; reflexivity. }
      rewrite Hp, Hinf in Hs by assumption. discriminate.
Qed.

Lemma nonneg_sum_finite (l : list num) :
  nonneg l = true -> is_finite (np_sum l) = true ->
  exists q, l = fin_vec q /\ Forall (fun x => 0 <= x) q.
Proof.
  intros Hl Hs.
  destruct (nonneg_acc_finite l (Fin 0) Hl eq_refl Hs) as [q ->].
  exists q; split; auto. apply nonneg_fin; exact Hl.
Qed.

Lemma length_fin_vec (l : list Q) : length (fin_vec l) = length l.
Proof. apply length_map. Qed.

Lemma length_zip_with {A B C : Type} (f : A -> B -> C) (a : list A)
    (b : list B) :
  length a = length b -> length (zip_with f a b) = length a.
Proof.
  intros H. unfold zip_with.
  rewrite length_map, length_combine, H. apply Nat.min_id.
Qed.

Lemma zip_with_fin (f : num -> num -> num) (g : Q -> Q -> Q) (a b : list Q) :
  (forall x y, f (Fin x) (Fin y) = Fin (g x y)) ->
  zip_with f (fin_vec a) (fin_vec b) = fin_vec (zip_with g a b).
Proof.
  intros Hf. revert b; induction a as [|x a IH]; intros [|y b]; simpl; auto.
  unfold zip_with in *; simpl. rewrite Hf. f_equal. apply IH.
Qed.

Lemma all_finite (l : list num) :
  forallb is_finite l = true -> exists q, l = fin_vec q.
Proof.
  induction l as [|x l IH]; simpl; intros H.
  - exists []; reflexivity.
  - apply andb_true_iff in H as [Hx Hl].
    destruct x as [q| | |]; try discriminate.
    destruct (IH Hl) as [qs ->]. exists (q :: qs); reflexivity.
Qed.

Lemma np_iadd_fin (st d : list Q) (s1 : list num) :
  np_iadd (fin_vec st) (fin_vec d) = Ret s1 ->
  exists q1, s1 = fin_vec q1 /\ length q1 = length st.
Proof.
  unfold np_iadd. rewrite !length_fin_vec.
  destruct (length d =? length st)%nat eqn:E.
  - apply Nat.eqb_eq in E. intros [= <-].
    exists (zip_with Qplus st d); split.
    + apply zip_with_fin; reflexivity.
    + apply length_zip_with; auto.
  - destruct d as [|y [|z d]]; simpl; try discriminate.
    intros [= <-]. exists (map (fun x => x + y) st); split.
    + unfold fin_vec; rewrite !map_map; reflexivity.
    + apply length_map.
Qed.

Lemma np_maximum_fin (q : list Q) :
  exists q2, np_maximum (fin_vec q) (Fin 0) = fin_vec q2
             /\ Forall (fun x => 0 <= x) q2 /\ length q2 = length q.
Proof.
  induction q as [|x q (q2 & E & Hq & Hl)].
  - exists []; repeat split; constructor.
  - unfold np_maximum in *; simpl. rewrite E.
    unfold nmax; simpl. destruct (Qle_bool 0 x) eqn:Hx.
    + exists (x :: q2); repeat split; simpl; auto.
      constructor; auto. apply Qle_bool_iff; exact Hx.
    + exists (0 :: q2); repeat split; simpl; auto.
      constructor; auto. lra.
Qed.

Lemma renormalize_fin (q : list Q) (s b : Q) :
  ~ s == 0 ->
  np_mul (np_div (fin_vec q) (Fin s)) (Fin b)
  = fin_vec (map (fun x => x / s * b) q).
Proof.
  intros Hs. unfold np_mul, np_div, fin_vec. rewrite !map_map.
  apply map_ext; intros x; simpl.
  rewrite (Qeq_bool_false Hs). reflexivity.
Qed.

Lemma np_dot_returns (a b : list num) :
  length a = length b -> exists r, np_dot a b = Ret r.
Proof.
  intros H. unfold np_dot. rewrite H, Nat.eqb_refl. eauto.
Qed.

(** ** MarketingEnv: the allocation stays on the budget simplex *)

Lemma reset_on_simplex (env : MarketingEnv.t) (draw : list num) (b : Q) :
  MarketingEnv.budget env = Fin b -> 0 <= b ->
  (1 <= MarketingEnv.num_channels env)%nat ->
  dirichlet_sample (MarketingEnv.num_channels env) draw = true ->
  exists env' s,
    MarketingEnv.reset env draw = Ret (env', s)
    /\ s = MarketingEnv.state env'
    /\ nonneg (MarketingEnv.state env') = true
    /\ np_sum (MarketingEnv.state env') =n= MarketingEnv.budget env.
Proof.
  intros Hb Hpos Hn Hd. unfold dirichlet_sample in Hd.
  apply andb_true_iff in Hd as [Hd Hsum].
  apply andb_true_iff in Hd as [_ Hnn].
  destruct (MarketingEnv.num_channels env) as [|n]; [lia|].
  apply num_eqb_spec in Hsum.
  destruct (nonneg_sum_finite draw Hnn) as (q & -> & Hq).
  { destruct (np_sum draw); simpl in *; auto; contradiction. }
  unfold MarketingEnv.reset. rewrite Hb.
  do 2 eexists; split; [reflexivity|]. simpl.
  assert (E : np_mul (fin_vec q) (Fin b) = fin_vec (map (fun x => x * b) q)).
  { unfold np_mul, fin_vec; rewrite !map_map; reflexivity. }
  rewrite E. repeat split.
  - apply nonneg_fin. apply Forall_map.
    eapply Forall_impl; [|exact Hq]. simpl; intros; nra.
  - rewrite np_sum_fin in *. simpl in *.
    rewrite fold_left_Qplus in *.
    rewrite (@Qsum_scale q (fun x => x * b) b) by (intros; reflexivity).
    nra.
Qed.

Lemma step_on_simplex (env : MarketingEnv.t) (delta s1 : list num) (b : Q) :
  MarketingEnv.budget env = Fin b -> 0 <= b ->
  length (MarketingEnv.betas env) = length (MarketingEnv.state env) ->
  forallb is_finite (MarketingEnv.state env) = true ->
  forallb is_finite delta = true ->
  np_iadd (MarketingEnv.state env) delta = Ret s1 ->
  num_eqb (np_sum (np_maximum s1 (Fin 0))) (Fin 0) = false ->
  exists env' r,
    MarketingEnv.step env delta
      = Ret (env', (MarketingEnv.state env', r, false))
    /\ nonneg (MarketingEnv.state env') = true
    /\ np_sum (MarketingEnv.state env') =n= MarketingEnv.budget env.
Proof.
  intros Hb Hpos Hlen Hst Hdl Hadd Hsum.
  destruct (all_finite _ Hst) as [st Est].
  destruct (all_finite _ Hdl) as [d ->].
  rewrite Est in Hadd, Hlen.
  destruct (np_iadd_fin _ _ Hadd) as (q1 & -> & Hl1).
  destruct (np_maximum_fin q1) as (q2 & E2 & Hq2 & Hl2).
  rewrite E2, np_sum_fin in Hsum.
  set (s := fold_left Qplus q2 0) in *.
  assert (Hs0 : ~ s == 0).
  { intros H. apply Qeq_bool_iff in H. simpl in Hsum. congruence. }
  assert (Hs : 0 < s).
  { assert (0 <= s).
    { unfold s. rewrite fold_left_Qplus.
      pose proof (Qsum_nonneg Hq2). lra. }
    destruct (Qlt_le_dec 0 s); auto. exfalso; apply Hs0; lra. }
  unfold MarketingEnv.step. rewrite Est, Hadd. simpl bind.
  rewrite E2, np_sum_fin. fold s. rewrite Hb, (@renormalize_fin q2 s b Hs0).
  destruct (np_dot_returns (MarketingEnv.betas env)
              (fin_vec (map (fun x => x / s * b) q2))) as [r Hr].
  { rewrite length_fin_vec, length_map, Hl2, Hl1, Hlen.
    apply length_fin_vec. }
  rewrite Hr. simpl bind.
  exists (MarketingEnv.set_state env
            (fin_vec (map (fun x => x / s * b) q2))), r.
  split; [reflexivity|]. simpl. split.
  - apply nonneg_fin. apply Forall_map.
    eapply Forall_impl; [|exact Hq2]. simpl; intros x Hx.
    apply Qmult_le_0_compat; auto.
    apply Qle_shift_div_l; auto. lra.
  - rewrite np_sum_fin. simpl. rewrite fold_left_Qplus.
    rewrite (@Qsum_scale q2 (fun x => x / s * b) (/ s * b)).
    + assert (E : Qsum q2 == s).
      { unfold s. rewrite fold_left_Qplus. ring. }
      rewrite E. field. exact Hs0.
    + intros x. field. exact Hs0.
Qed.

(** *** C1 (as stated, refuted).  A delta that empties every channel makes
    the renormalisation divide zero by zero: the allocation becomes NaN,
    so its entries are not at least zero and do not sum to the budget.
    With a negative budget the entries are negative already after
    [reset].  With no channel at all the constructor succeeds on the
    empty Dirichlet sample and leaves the empty allocation, whose sum is
    zero and not the budget. *)
Lemma budget_simplex_counterexample :
  (env <- MarketingEnv.init (fin_vec [1; 1]) (Fin 2) (fin_vec [1#2; 1#2]) ;;
   MarketingEnv.step env (fin_vec [-1; -1]))
  = Ret (MarketingEnv.Build (fin_vec [1; 1]) (Fin 2) 2 [NaN; NaN],
         ([NaN; NaN], NaN, false))
  /\ nonneg [NaN; NaN] = false
  /\ ~ np_sum [NaN; NaN] =n= Fin 2
  /\ dirichlet_sample 2 (fin_vec [1#2; 1#2]) = true
  /\ (exists env,
       MarketingEnv.init (fin_vec [1; 1]) (Fin (-2)) (fin_vec [1#2; 1#2])
       = Ret env
       /\ nonneg (MarketingEnv.state env) = false)
  /\ dirichlet_sample 0 [] = true
  /\ MarketingEnv.init [] (Fin 2) [] = Ret (MarketingEnv.Build [] (Fin 2) 0 [])
  /\ ~ np_sum (@nil num) =n= Fin 2.
Proof.
  split; [vm_compute; reflexivity|].
  split; [reflexivity|].
  split; [intros H; exact H|].
  split; [reflexivity|].
  split; [eexists; split; [vm_compute; reflexivity|reflexivity]|].
  split; [reflexivity|].
  split; [reflexivity|].
  vm_compute. discriminate.
Qed.

(** *** C1 (amended).  For a finite budget [B >= 0]: after [reset] of an
    environment with at least one channel on a Dirichlet sample, and
    after [step] from a finite state with a finite delta of a
    broadcastable shape whose clamped vector does not sum to zero, the
    call returns and every entry of the allocation is at least zero and
    the entries sum to [B] (exactly, in exact arithmetic). *)
Theorem budget_simplex_invariant (env : MarketingEnv.t) (b : Q) :
  MarketingEnv.budget env = Fin b -> 0 <= b ->
  (forall draw,
     (1 <= MarketingEnv.num_channels env)%nat ->
     dirichlet_sample (MarketingEnv.num_channels env) draw = true ->
     exists env' s,
       MarketingEnv.reset env draw = Ret (env', s)
       /\ s = MarketingEnv.state env'
       /\ nonneg (MarketingEnv.state env') = true
       /\ np_sum (MarketingEnv.state env') =n= MarketingEnv.budget env)
  /\
  (forall delta s1,
     length (MarketingEnv.betas env) = length (MarketingEnv.state env) ->
     forallb is_finite (MarketingEnv.state env) = true ->
     forallb is_finite delta = true ->
     np_iadd (MarketingEnv.state env) delta = Ret s1 ->
     num_eqb (np_sum (np_maximum s1 (Fin 0))) (Fin 0) = false ->
     exists env' r,
       MarketingEnv.step env delta
         = Ret (env', (MarketingEnv.state env', r, false))
       /\ nonneg (MarketingEnv.state env') = true
       /\ np_sum (MarketingEnv.state env') =n= MarketingEnv.budget env).
Proof.
  intros Hb Hpos; split.
  - intros draw Hn Hd. eapply reset_on_simplex; eauto.
  - intros delta s1 Hlen Hst Hdl Hadd Hsum.
    eapply step_on_simplex; eauto.
Qed.

Lemma budget_simplex_invariant_witness :
  let env := MarketingEnv.Build (fin_vec [1; 2; 3]) (Fin 300) 3
               (fin_vec [100; 100; 100]) in
  (exists env' s,
     MarketingEnv.reset env (fin_vec [1#2; 1#4; 1#4]) = Ret (env', s)
     /\ s = MarketingEnv.state env'
     /\ nonneg (MarketingEnv.state env') = true
     /\ np_sum (MarketingEnv.state env') =n= Fin 300)
  /\
  (exists env' r,
     MarketingEnv.step env (fin_vec [0; -150; 5])
       = Ret (env', (MarketingEnv.state env', r, false))
     /\ nonneg (MarketingEnv.state env') = true
     /\ np_sum (MarketingEnv.state env') =n= Fin 300).
Proof.
  intros env.
  destruct (@budget_simplex_invariant env 300 eq_refl) as [Hreset Hstep].
  - unfold Qle; simpl; lia.
  - split.
    + apply (Hreset (fin_vec [1#2; 1#4; 1#4])); [simpl; lia|reflexivity].
    + apply (Hstep (fin_vec [0; -150; 5])
               (fin_vec [100 + 0; 100 + -150; 100 + 5])); reflexivity.
Defined.

(** ** MarketingEnv: what [step] returns *)

Lemma np_iadd_length (a b s1 : list num) :
  np_iadd a b = Ret s1 -> length s1 = length a.
Proof.
  unfold np_iadd. destruct (length b =? length a)%nat eqn:E.
  - apply Nat.eqb_eq in E. intros [= <-]. apply length_zip_with; auto.
  - destruct b as [|y [|z b]]; try discriminate.
    intros [= <-]. apply length_map.
Qed.

(** The allocation [step] computes from the sum [s1] of state and delta. *)
Lemma step_returns (env : MarketingEnv.t) (delta s1 : list num) :
  length (MarketingEnv.betas env) = length (MarketingEnv.state env) ->
  np_iadd (MarketingEnv.state env) delta = Ret s1 ->
  let s2 := np_maximum s1 (Fin 0) in
  let s3 := np_mul (np_div s2 (np_sum s2)) (MarketingEnv.budget env) in
  exists r,
    np_dot (MarketingEnv.betas env) s3 = Ret r
    /\ MarketingEnv.step env delta
       = Ret (MarketingEnv.set_state env s3, (s3, r, false)).
Proof.
  intros Hlen Hadd s2 s3.
  destruct (np_dot_returns (MarketingEnv.betas env) s3) as [r Hr].
  { unfold s3, s2, np_mul, np_div, np_maximum. rewrite !length_map.
    rewrite (np_iadd_length _ _ Hadd). exact Hlen. }
  exists r; split; auto.
  unfold MarketingEnv.step. rewrite Hadd. simpl bind.
  fold s2. fold s3. rewrite Hr. reflexivity.
Qed.

(** The shape of the environment is kept: [__init__] establishes it and
    [step] preserves it. *)
Lemma well_formed_lengths (env : MarketingEnv.t) :
  MarketingEnv.well_formed env = true ->
  length (MarketingEnv.betas env) = length (MarketingEnv.state env).
Proof.
  unfold MarketingEnv.well_formed. intros H.
  apply andb_true_iff in H as [H1 H2].
  apply Nat.eqb_eq in H1, H2. congruence.
Qed.

Lemma init_well_formed (betas : list num) (budget : num) (draw : list num)
    (env : MarketingEnv.t) :
  dirichlet_sample (length betas) draw = true ->
  MarketingEnv.init betas budget draw = Ret env ->
  MarketingEnv.well_formed env = true.
Proof.
  unfold dirichlet_sample. intros H [= <-].
  apply andb_true_iff in H as [H _]. apply andb_true_iff in H as [H _].
  unfold MarketingEnv.well_formed, np_mul; simpl.
  rewrite length_map, H, Nat.eqb_refl. reflexivity.
Qed.

Lemma step_well_formed (env env' : MarketingEnv.t) (delta : list num)
    (out : list num * num * bool) :
  MarketingEnv.well_formed env = true ->
  MarketingEnv.step env delta = Ret (env', out) ->
  MarketingEnv.well_formed env' = true.
Proof.
  unfold MarketingEnv.well_formed, MarketingEnv.step. intros H.
  destruct (np_iadd (MarketingEnv.state env) delta) as [s1|e] eqn:E1;
    cbn [bind]; [|discriminate].
  destruct (np_dot (MarketingEnv.betas env) _) as [r|e];
    cbn [bind]; [|discriminate].
  intros [= <- _]. simpl.
  unfold np_mul, np_div, np_maximum. rewrite !length_map.
  rewrite (np_iadd_length _ _ E1). exact H.
Qed.

(** *** C2.  Whenever [step] returns, the allocation it leaves is the
    renormalised clamp of state plus delta: entry by entry,
    [max(state + delta, 0)] divided by the sum of these clamped entries
    and multiplied by the budget.  The reward is the dot product of the
    coefficients (which the step leaves as they were) and that allocation,
    the sum of [beta_i * state_i] in index order, and the [done] flag is
    [False].  So the reward is a function of state, coefficients, budget
    and delta: an environment that agrees on them returns the same state
    and reward.  Whenever the delta fits the state, [step] does return. *)
Theorem step_reward_is_revenue (env : MarketingEnv.t) (delta : list num) :
  (forall env' s r d,
     MarketingEnv.step env delta = Ret (env', (s, r, d)) ->
     exists s1,
       np_iadd (MarketingEnv.state env) delta = Ret s1
       /\ (length delta = length (MarketingEnv.state env) ->
           s1 = zip_with nadd (MarketingEnv.state env) delta)
       /\ MarketingEnv.state env'
          = map (fun x => (nmax x (Fin 0)
                           / np_sum (map (fun y => nmax y (Fin 0)) s1)
                           * MarketingEnv.budget env)%num) s1
       /\ np_dot (MarketingEnv.betas env) (MarketingEnv.state env') = Ret r
       /\ r = fold_left nadd
                (zip_with nmul (MarketingEnv.betas env)
                   (MarketingEnv.state env')) (Fin 0)
       /\ s = MarketingEnv.state env'
       /\ MarketingEnv.betas env' = MarketingEnv.betas env
       /\ MarketingEnv.budget env' = MarketingEnv.budget env
       /\ d = false
       /\ forall env2,
            MarketingEnv.state env2 = MarketingEnv.state env ->
            MarketingEnv.betas env2 = MarketingEnv.betas env ->
            MarketingEnv.budget env2 = MarketingEnv.budget env ->
            exists env2',
              MarketingEnv.step env2 delta = Ret (env2', (s, r, d)))
  /\
  (forall s1,
     length (MarketingEnv.betas env) = length (MarketingEnv.state env) ->
     np_iadd (MarketingEnv.state env) delta = Ret s1 ->
     exists env' r,
       MarketingEnv.step env delta
       = Ret (env', (MarketingEnv.state env', r, false))).
Proof.
  split.
  - intros env' s r d. unfold MarketingEnv.step.
    destruct (np_iadd (MarketingEnv.state env) delta) as [s1|e] eqn:E1;
      cbn [bind]; [|discriminate].
    destruct (np_dot (MarketingEnv.betas env) _) as [r'|e] eqn:E2;
      cbn [bind]; [|discriminate].
    intros [= <- <- <- <-]. simpl. exists s1.
    split; [reflexivity|].
    split.
    { intros Hlen. unfold np_iadd in E1.
      rewrite Hlen, Nat.eqb_refl in E1. congruence. }
    split.
    { unfold np_mul, np_div, np_maximum. rewrite !map_map. reflexivity. }
    split; [exact E2|].
    split.
    { unfold np_dot in E2.
      destruct (length (MarketingEnv.betas env) =? _)%nat;
        [congruence|discriminate]. }
    repeat split; auto.
    intros env2 Hs Hb Hbud. rewrite Hs, Hb, Hbud, E1. cbn [bind].
    rewrite E2. cbn [bind]. eexists; reflexivity.
  - intros s1 Hlen Hadd.
    destruct (step_returns env delta Hlen Hadd) as (r & _ & Hstep).
    eexists (MarketingEnv.set_state env _), r. exact Hstep.
Qed.

Lemma step_reward_is_revenue_witness :
  let env := MarketingEnv.Build (fin_vec [1; 2; 3]) (Fin 300) 3
               (fin_vec [100; 100; 100]) in
  exists env' r,
    MarketingEnv.step env (fin_vec [0; 0; 5])
      = Ret (env', (MarketingEnv.state env', r, false))
    /\ MarketingEnv.state env'
       = map (fun x => (nmax x (Fin 0) / Fin (100 + 100 + 105) * Fin 300)%num)
             (fin_vec [100; 100; 105])
    /\ np_dot (fin_vec [1; 2; 3]) (MarketingEnv.state env') = Ret r
    /\ MarketingEnv.betas env' = fin_vec [1; 2; 3].
Proof.
  intros env.
  destruct (step_reward_is_revenue env (fin_vec [0; 0; 5])) as [Hret Htot].
  destruct (Htot (fin_vec [100 + 0; 100 + 0; 100 + 5]) eq_refl eq_refl)
    as (env' & r & Hstep).
  destruct (Hret _ _ _ _ Hstep)
    as (s1 & Hadd & _ & Hstate & Hdot & _ & _ & Hb & _).
  exists env', r. repeat split; try assumption.
  rewrite Hstate. injection Hadd as <-. reflexivity.
Defined.

(** ** MarketingEnv: the degenerate allocation *)

Lemma fold_left_nadd_nan (l : list num) : fold_left nadd l NaN = NaN.
Proof.
  induction l as [|x l IH]; simpl; auto.
Qed.

(** A dot product with a vector of NaN is NaN, unless it is empty. *)
Lemma fold_dot_nan (a b : list num) (acc : num) :
  forallb is_nan b = true -> zip_with nmul a b <> [] ->
  fold_left nadd (zip_with nmul a b) acc = NaN.
Proof.
  unfold zip_with; intros H Hne.
  destruct a as [|x a], b as [|y b]; simpl in *; try congruence.
  apply andb_true_iff in H as [Hy _].
  destruct y; try discriminate.
  rewrite nmul_nan_r.
  assert (E : (acc + NaN)%num = NaN) by (destruct acc; reflexivity).
  rewrite E. apply fold_left_nadd_nan.
Qed.

Lemma sum_of_zeros (l : list num) (a : num) :
  Forall (fun x => x =n= Fin 0) l -> a =n= Fin 0 ->
  fold_left nadd l a =n= Fin 0.
Proof.
  intros H; revert a; induction H as [|x l Hx _ IH]; intros a Ha; simpl.
  - exact Ha.
  - apply IH. destruct a, x; simpl in *; try contradiction. lra.
Qed.

Lemma zero_over_zero (x s : num) :
  x =n= Fin 0 -> s =n= Fin 0 -> (x / s)%num = NaN.
Proof.
  destruct x as [x| | |], s as [s| | |]; simpl; try contradiction.
  intros Hx Hs. apply Qeq_bool_iff in Hs. rewrite Hs.
  rewrite Hx. reflexivity.
Qed.

(** *** C5 (as stated, refuted).  A delta that empties every channel
    raises nothing: [step] returns, with NaN in every entry of the state
    and as the reward. *)
Lemma step_degenerate_counterexample :
  let env := MarketingEnv.Build (fin_vec [2; 3]) (Fin 10) 2
               (fin_vec [5; 5]) in
  Forall (fun x => x =n= Fin 0)
         (np_maximum (fin_vec [5 + -5; 5 + -5]) (Fin 0))
  /\ MarketingEnv.step env (fin_vec [-5; -5])
     = Ret (MarketingEnv.set_state env [NaN; NaN], ([NaN; NaN], NaN, false))
  /\ forall e, MarketingEnv.step env (fin_vec [-5; -5]) <> Raise e.
Proof.
  intros env. split; [repeat constructor|].
  assert (E : MarketingEnv.step env (fin_vec [-5; -5])
              = Ret (MarketingEnv.set_state env [NaN; NaN],
                     ([NaN; NaN], NaN, false)))
    by (vm_compute; reflexivity).
  split; [exact E|]. intros e; rewrite E; discriminate.
Qed.

(** *** C5 (amended).  For any delta of a broadcastable shape that makes
    every entry of the clamped allocation zero, [step] raises no error:
    it returns, every entry of the new state is NaN, and, unless there is
    no channel at all, so is the reward. *)
Theorem step_degenerate_returns_nan
    (env : MarketingEnv.t) (delta s1 : list num) :
  length (MarketingEnv.betas env) = length (MarketingEnv.state env) ->
  np_iadd (MarketingEnv.state env) delta = Ret s1 ->
  Forall (fun x => x =n= Fin 0) (np_maximum s1 (Fin 0)) ->
  exists env' r,
    MarketingEnv.step env delta
      = Ret (env', (MarketingEnv.state env', r, false))
    /\ forallb is_nan (MarketingEnv.state env') = true
    /\ (s1 <> [] -> is_nan r = true).
Proof.
  intros Hlen Hadd Hz.
  destruct (step_returns env delta Hlen Hadd) as (r & Hdot & Hstep).
  set (s2 := np_maximum s1 (Fin 0)) in *.
  set (s3 := np_mul (np_div s2 (np_sum s2)) (MarketingEnv.budget env)) in *.
  assert (Hsum : np_sum s2 =n= Fin 0).
  { apply sum_of_zeros; auto. simpl; reflexivity. }
  assert (Hnan : forallb is_nan s3 = true).
  { unfold s3, np_mul, np_div. rewrite map_map. apply forallb_forall.
    intros y Hy. apply in_map_iff in Hy as (x & <- & Hx).
    rewrite Forall_forall in Hz.
    rewrite (zero_over_zero x (np_sum s2) (Hz x Hx) Hsum). reflexivity. }
  exists (MarketingEnv.set_state env s3), r.
  split; [exact Hstep|]. split; [exact Hnan|].
  intros Hne. unfold np_dot in Hdot.
  destruct (length (MarketingEnv.betas env) =? length s3)%nat eqn:E;
    [|discriminate].
  apply Nat.eqb_eq in E. injection Hdot as <-.
  rewrite fold_dot_nan; auto.
  assert (Hl3 : length s3 = length s1).
  { unfold s3, s2, np_mul, np_div, np_maximum. rewrite !length_map.
    reflexivity. }
  destruct s1 as [|x s1']; [congruence|].
  destruct (MarketingEnv.betas env), s3; simpl in *; try discriminate.
Qed.

Lemma step_degenerate_returns_nan_witness :
  let env := MarketingEnv.Build (fin_vec [2; 3]) (Fin 10) 2
               (fin_vec [5; 5]) in
  exists env' r,
    MarketingEnv.step env (fin_vec [-5; -5])
      = Ret (env', (MarketingEnv.state env', r, false))
    /\ forallb is_nan (MarketingEnv.state env') = true
    /\ (fin_vec [5 + -5; 5 + -5] <> [] -> is_nan r = true).
Proof.
  intros env.
  apply (@step_degenerate_returns_nan env (fin_vec [-5; -5])
           (fin_vec [5 + -5; 5 + -5])).
  - reflexivity.
  - reflexivity.
  - repeat constructor.
Defined.

(** ** MarketingEnv: construction *)

(** *** C8 (as stated, refuted).  Construction with a negative budget,
    with a zero budget and with no coefficient at all returns an
    environment, state included. *)
Lemma init_validation_counterexample :
  MarketingEnv.init (fin_vec [2; 3]) (Fin (-10)) (fin_vec [1#2; 1#2])
  = Ret (MarketingEnv.Build (fin_vec [2; 3]) (Fin (-10)) 2
           (fin_vec [(1#2) * -10; (1#2) * -10]))
  /\ MarketingEnv.init (fin_vec [2; 3]) (Fin 0) (fin_vec [1#2; 1#2])
     = Ret (MarketingEnv.Build (fin_vec [2; 3]) (Fin 0) 2
              (fin_vec [(1#2) * 0; (1#2) * 0]))
  /\ MarketingEnv.init [] (Fin 10) []
     = Ret (MarketingEnv.Build [] (Fin 10) 0 []).
Proof. repeat split. Qed.

(** *** C8 (amended).  Construction validates nothing: for every
    coefficient vector and every budget it returns an environment that
    stores them, counts the coefficients as channels and holds the
    Dirichlet sample scaled by the budget as its state. *)
Theorem init_always_constructs
    (betas : list num) (budget : num) (draw : list num) :
  exists env,
    MarketingEnv.init betas budget draw = Ret env
    /\ MarketingEnv.betas env = betas
    /\ MarketingEnv.budget env = budget
    /\ MarketingEnv.num_channels env = length betas
    /\ MarketingEnv.state env = np_mul draw budget.
Proof.
  eexists; split; [reflexivity|]. simpl. repeat split.
Qed.

(** ** MarketingEnv: the zero delta *)

Lemma fold_left_nadd_compat (l l' : list num) (a a' : num) :
  vec_eq l l' -> a =n= a' -> fold_left nadd l a =n= fold_left nadd l' a'.
Proof.
  intros H; revert a a'; induction H as [|x y l l' Hxy _ IH];
    intros a a' Ha; simpl; auto.
  apply IH. apply nadd_compat; auto.
Qed.

Lemma zip_nmul_compat (a l l' : list num) :
  vec_eq l l' -> vec_eq (zip_with nmul a l) (zip_with nmul a l').
Proof.
  intros H; revert a; induction H as [|x y l l' Hxy _ IH];
    intros [|z a]; unfold zip_with; simpl; try constructor.
  - apply nmul_compat; auto using num_eq_refl.
  - apply IH.
Qed.

Lemma np_dot_compat (a l l' : list num) (r : num) :
  vec_eq l l' -> np_dot a l = Ret r ->
  exists r', np_dot a l' = Ret r' /\ r =n= r'.
Proof.
  intros H. unfold np_dot. rewrite <- (Forall2_length H).
  destruct (length a =? length l)%nat; [|discriminate].
  intros [= <-]. eexists; split; [reflexivity|].
  apply fold_left_nadd_compat; [apply zip_nmul_compat; exact H|].
  apply num_eq_refl.
Qed.

(** Adding zero and clamping leaves entries that are at least zero as
    they are, up to the trailing [+ 0]. *)
Lemma clamp_add_zero (st : list Q) :
  Forall (fun x => 0 <= x) st ->
  np_maximum (zip_with nadd (fin_vec st) (repeat (Fin 0) (length st))) (Fin 0)
  = fin_vec (map (fun x => x + 0) st).
Proof.
  induction 1 as [|x st Hx _ IH]; simpl; auto.
  unfold np_maximum, zip_with in *; simpl. rewrite IH. f_equal.
  unfold nmax; simpl.
  assert (E : Qle_bool 0 (x + 0) = true) by (apply Qle_bool_iff; lra).
  rewrite E. reflexivity.
Qed.

(** *** C10 (as stated, refuted).  With a zero budget the state [0, 0]
    has entries at least zero that sum to the budget, yet the zero delta
    turns it into NaN. *)
Lemma zero_delta_counterexample :
  let env := MarketingEnv.Build (fin_vec [2; 3]) (Fin 0) 2 (fin_vec [0; 0]) in
  nonneg (MarketingEnv.state env) = true
  /\ np_sum (MarketingEnv.state env) =n= MarketingEnv.budget env
  /\ MarketingEnv.step env (fin_vec [0; 0])
     = Ret (MarketingEnv.set_state env [NaN; NaN], ([NaN; NaN], NaN, false))
  /\ ~ vec_eq [NaN; NaN] (MarketingEnv.state env).
Proof.
  intros env. split; [reflexivity|]. split; [reflexivity|].
  split; [vm_compute; reflexivity|].
  intros H. inversion H as [|? ? ? ? H1 _]. exact H1.
Qed.

(** *** C10 (amended).  When the budget is finite and not zero and the
    entries of the state are at least zero and sum to the budget, [step]
    with the all-zero delta returns the same allocation, and its reward
    is the dot product of the coefficients and that state. *)
Theorem zero_delta_identity (env : MarketingEnv.t) :
  length (MarketingEnv.betas env) = length (MarketingEnv.state env) ->
  nonneg (MarketingEnv.state env) = true ->
  np_sum (MarketingEnv.state env) =n= MarketingEnv.budget env ->
  is_finite (MarketingEnv.budget env) = true ->
  ~ MarketingEnv.budget env =n= Fin 0 ->
  exists env' r r0,
    MarketingEnv.step env (repeat (Fin 0) (length (MarketingEnv.state env)))
      = Ret (env', (MarketingEnv.state env', r, false))
    /\ vec_eq (MarketingEnv.state env') (MarketingEnv.state env)
    /\ np_dot (MarketingEnv.betas env) (MarketingEnv.state env) = Ret r0
    /\ r =n= r0.
Proof.
  destruct env as [betas budget n state]; simpl.
  intros Hlen Hnn Hsum Hfin Hb0.
  destruct budget as [b| | |]; try discriminate.
  destruct (nonneg_sum_finite _ Hnn) as (st & -> & Hst).
  { destruct (np_sum state); auto; contradiction. }
  set (env := MarketingEnv.Build betas (Fin b) n (fin_vec st)).
  rewrite length_fin_vec in *.
  assert (Hadd : np_iadd (MarketingEnv.state env) (repeat (Fin 0) (length st))
                 = Ret (zip_with nadd (fin_vec st)
                          (repeat (Fin 0) (length st)))).
  { unfold np_iadd; simpl. rewrite repeat_length, length_fin_vec, Nat.eqb_refl.
    reflexivity. }
  destruct (@step_returns env _ _ (eq_trans Hlen (eq_sym (length_fin_vec st)))
              Hadd) as (r & Hdot & Hstep).
  rewrite clamp_add_zero, np_sum_fin in Hdot, Hstep by assumption.
  rewrite np_sum_fin in Hsum. simpl in Hsum, Hb0, Hdot, Hstep.
  set (s := fold_left Qplus (map (fun x => x + 0) st) 0) in *.
  assert (Es : s == b).
  { unfold s. rewrite fold_left_Qplus in *.
    rewrite (@Qsum_scale st (fun x => x + 0) 1) by (intros; ring). lra. }
  assert (Hs0 : ~ s == 0) by (rewrite Es; exact Hb0).
  rewrite (@renormalize_fin _ s b Hs0) in Hdot, Hstep.
  set (s3 := fin_vec (map (fun x => x / s * b) (map (fun x => x + 0) st))) in *.
  assert (Hvec : vec_eq s3 (fin_vec st)).
  { unfold s3, fin_vec. rewrite !map_map.
    clearbody s. clear - Es Hs0.
    induction st as [|x st IH]; simpl; constructor; auto.
    simpl. rewrite <- Es. field. exact Hs0. }
  destruct (np_dot_compat betas Hvec Hdot) as (r0 & Hdot0 & Hr).
  exists (MarketingEnv.set_state env s3), r, r0.
  repeat split; auto.
Qed.

Lemma zero_delta_identity_witness :
  let env := MarketingEnv.Build (fin_vec [1; 2; 3]) (Fin 300) 3
               (fin_vec [0; 100; 200]) in
  exists env' r r0,
    MarketingEnv.step env (repeat (Fin 0) 3)
      = Ret (env', (MarketingEnv.state env', r, false))
    /\ vec_eq (MarketingEnv.state env') (fin_vec [0; 100; 200])
    /\ np_dot (fin_vec [1; 2; 3]) (fin_vec [0; 100; 200]) = Ret r0
    /\ r =n= r0.
Proof.
  intros env.
  apply (@zero_delta_identity env); try reflexivity.
  simpl. unfold Qeq; simpl; lia.
Defined.

(** ** PPOAgent: [compute_advantage] is the backward recursion *)

Lemma combine_snoc {A B : Type} (l : list A) (l' : list B) (x : A) (y : B) :
  length l = length l' ->
  combine (l ++ [x]) (l' ++ [y]) = combine l l' ++ [(x, y)].
Proof.
  revert l'; induction l as [|a l IH]; intros [|b l'] H; simpl in *;
    try discriminate; auto.
  f_equal. apply IH. congruence.
Qed.

Lemma combine_rev {A B : Type} (l : list A) (l' : list B) :
  length l = length l' -> combine (rev l) (rev l') = rev (combine l l').
Proof.
  revert l'; induction l as [|a l IH]; intros [|b l'] H; simpl in *;
    try discriminate; auto.
  rewrite combine_snoc, IH; auto.
  rewrite !length_rev. congruence.
Qed.

(** The loop, run over the reversed trajectory, has built the returns and
    advantages of the specification; its [G] is the first return. *)
Lemma advantage_loop (gamma : num) (rs vs : list num) :
  length rs = length vs ->
  fold_left (PPOAgent.advantage_step gamma) (rev (combine rs vs))
            (Fin 0, [], [])
  = (hd (Fin 0) (Spec.returns gamma rs),
     Spec.advantages gamma rs vs,
     Spec.returns gamma rs).
Proof.
  revert vs; induction rs as [|r rs IH]; intros [|v vs] H; simpl in *;
    try discriminate; auto.
  rewrite fold_left_app, IH by congruence. reflexivity.
Qed.

Lemma compute_advantage_vectors (gamma : num) (rs vs : list num) :
  length rs = length vs ->
  PPOAgent.compute_advantage gamma (Vector rs) (Vector vs)
  = Ret (Vector (Spec.advantages gamma rs vs),
         Vector (Spec.returns gamma rs)).
Proof.
  intros H. unfold PPOAgent.compute_advantage; simpl.
  rewrite combine_rev, advantage_loop by assumption. reflexivity.
Qed.

(** *** C3.  On rewards and values of equal length [compute_advantage]
    returns the returns and advantages of the backward recursion
    [G <- r_t + gamma * G], [returns[t] = G], [advantages[t] = G - v_t];
    on a trajectory of length one its advantage is [r - v] and its return
    [r]; on rewards [1, 1] and values [0, 0] with [gamma = 0.5] its
    returns and its advantages are [1.5, 1]. *)
Theorem compute_advantage_recursion :
  (forall gamma rs vs,
     length rs = length vs ->
     PPOAgent.compute_advantage gamma (Vector rs) (Vector vs)
     = Ret (Vector (Spec.advantages gamma rs vs),
            Vector (Spec.returns gamma rs)))
  /\ (forall gamma r v : Q,
        exists a g,
          PPOAgent.compute_advantage (Fin gamma)
            (Vector [Fin r]) (Vector [Fin v])
          = Ret (Vector [a], Vector [g])
          /\ a =n= Fin (r - v) /\ g =n= Fin r)
  /\ (exists a1 a2 g1 g2,
        PPOAgent.compute_advantage (Fin (1#2))
          (Vector (fin_vec [1; 1])) (Vector (fin_vec [0; 0]))
        = Ret (Vector [a1; a2], Vector [g1; g2])
        /\ g1 =n= Fin (3#2) /\ g2 =n= Fin 1
        /\ a1 =n= Fin (3#2) /\ a2 =n= Fin 1).
Proof.
  split; [exact compute_advantage_vectors|]. split.
  - intros gamma r v. do 2 eexists. split; [reflexivity|].
    simpl; split; ring.
  - do 4 eexists. split; [reflexivity|]. repeat split.
Qed.

Lemma compute_advantage_recursion_witness :
  PPOAgent.compute_advantage (Fin (99#100))
    (Vector (fin_vec [3; 5; 2])) (Vector (fin_vec [1; 1; 1]))
  = Ret (Vector (Spec.advantages (Fin (99#100)) (fin_vec [3; 5; 2])
                   (fin_vec [1; 1; 1])),
         Vector (Spec.returns (Fin (99#100)) (fin_vec [3; 5; 2]))).
Proof.
  apply (proj1 compute_advantage_recursion). reflexivity.
Defined.

(** ** PPOAgent: the clipped surrogate objective *)

Lemma broadcast2_vectors (f : num -> num -> num) (xs ys : list num) :
  length xs = length ys ->
  broadcast2 f (Vector xs) (Vector ys) = Ret (Vector (zip_with f xs ys)).
Proof.
  intros H; simpl. rewrite H, Nat.eqb_refl. reflexivity.
Qed.

(** A squeezed column broadcasts against a vector of its own length as the
    column itself does. *)
Lemma broadcast2_squeeze (f : num -> num -> num) (xs ys : list num) :
  length xs = length ys ->
  broadcast2 f (squeeze xs) (Vector ys) = Ret (Vector (zip_with f xs ys)).
Proof.
  intros H. destruct xs as [|x [|x' xs]].
  - apply broadcast2_vectors; exact H.
  - destruct ys as [|y [|y' ys]]; try discriminate. reflexivity.
  - apply (broadcast2_vectors f (x :: x' :: xs) ys H).
Qed.

Lemma squeeze_vector (l : list num) : length l <> 1%nat -> squeeze l = Vector l.
Proof.
  destruct l as [|x [|y l]]; simpl; auto. congruence.
Qed.

Lemma gather_length (probs : list (list num)) (actions : list nat)
    (g : list num) :
  gather probs actions = Ret g -> length g = length actions.
Proof.
  revert probs g; induction actions as [|a actions IH];
    intros probs g; simpl.
  - intros [= <-]; reflexivity.
  - destruct probs as [|row probs]; [discriminate|].
    destruct (nth_error row a); [|discriminate].
    destruct (gather probs actions) as [rest|e] eqn:E; simpl; [|discriminate].
    intros [= Hg]; subst g. simpl. f_equal. eapply IH; eauto.
Qed.

(** The four vectorised operations of [actor_loss] compute, step by step,
    the clipped surrogate of the specification. *)
Lemma surrogates_vectorised (eps : num) (ps qs advs : list num) :
  length ps = length qs -> length qs = length advs ->
  let ratio := zip_with ndiv ps qs in
  zip_with nmin
    (zip_with nmul ratio advs)
    (zip_with nmul
       (map (fun r => clamp r (Fin 1 - eps)%num (Fin 1 + eps)%num) ratio)
       advs)
  = Spec.surrogates eps ps qs advs.
Proof.
  revert qs advs; induction ps as [|p ps IH]; intros [|q qs] [|a advs];
    simpl; try discriminate; auto.
  intros H1 H2. unfold zip_with in *; simpl. f_equal.
  apply IH; congruence.
Qed.

Lemma actor_loss_squeezed (eps : num) (ps qs advs : list num) :
  length ps = length qs -> length qs = length advs ->
  PPOAgent.actor_loss eps (squeeze ps) (Vector qs) (Vector advs)
  = Ret (Spec.actor_loss eps ps qs advs).
Proof.
  intros H1 H2. unfold PPOAgent.actor_loss.
  rewrite broadcast2_squeeze by assumption. cbn [bind].
  assert (Hr : length (zip_with ndiv ps qs) = length advs).
  { rewrite length_zip_with; congruence. }
  rewrite broadcast2_vectors by assumption. cbn [bind]. cbn [tmap].
  rewrite broadcast2_vectors by (rewrite length_map; assumption).
  cbn [bind].
  rewrite broadcast2_vectors
    by (rewrite !length_zip_with; rewrite ?length_map; congruence).
  cbn [bind]. rewrite surrogates_vectorised by assumption.
  reflexivity.
Qed.

Lemma clamp_upper (eps ratio : Q) :
  exists c, clamp (Fin ratio) (Fin 1 - Fin eps)%num (Fin 1 + Fin eps)%num
            = Fin c /\ c <= 1 + eps.
Proof.
  unfold clamp, nmin, nmax; simpl.
  destruct (Qle_bool (1 - eps) ratio); simpl.
  - destruct (Qle_bool ratio (1 + eps)) eqn:E; eexists; split;
      try reflexivity; try lra.
    apply Qle_bool_iff; exact E.
  - destruct (Qle_bool (1 - eps) (1 + eps)) eqn:E; eexists; split;
      try reflexivity; try lra.
    apply Qle_bool_iff in E. lra.
Qed.

(** *** C4.  In [update] the actor loss is the negative mean, over the
    steps of the trajectory, of
    [min(ratio * A, clip(ratio, 1 - eps, 1 + eps) * A)] with
    [ratio = new_prob / old_prob], the new probabilities being those the
    actor returns on the states at the actions taken; and for a ratio
    outside
    [[1 - eps, 1 + eps]] and a positive advantage, the clipped term (and so
    the minimum) does not exceed [(1 + eps) * A]. *)
Theorem clipped_surrogate_objective :
  (forall (torch : PPOAgent.Torch) (p : PPOAgent.ActorP) eps states actions
          old_probs advantages probs new_probs,
     batch (PPOAgent.actor_forward p) states = Ret probs ->
     gather probs actions = Ret new_probs ->
     length old_probs = length actions ->
     length advantages = length actions ->
     PPOAgent.actor_objective eps states actions
       (Vector old_probs) (Vector advantages) p
     = Ret (Spec.actor_loss eps new_probs old_probs advantages))
  /\
  (forall eps ratio adv : Q,
     ratio < 1 - eps \/ 1 + eps < ratio -> 0 < adv ->
     nle (clamp (Fin ratio) (Fin 1 - Fin eps) (Fin 1 + Fin eps) * Fin adv)%num
         (Fin (1 + eps) * Fin adv)%num = true
     /\ nle (Spec.surrogate (Fin eps) (Fin ratio) (Fin adv))
            (Fin (1 + eps) * Fin adv)%num = true).
Proof.
  split.
  - intros torch p eps states actions old_probs advantages probs new_probs
           Hp Hg Ho Ha.
    unfold PPOAgent.actor_objective, PPOAgent.new_probs.
    rewrite Hp. cbn [bind]. rewrite Hg. cbn [bind].
    pose proof (gather_length _ _ Hg).
    apply actor_loss_squeezed; congruence.
  - intros eps ratio adv _ Hadv.
    destruct (clamp_upper eps ratio) as (c & Ec & Hc).
    assert (H2 : c * adv <= (1 + eps) * adv) by nra.
    unfold Spec.surrogate. rewrite Ec. simpl. split.
    + apply Qle_bool_iff; exact H2.
    + unfold nmin; simpl.
      destruct (Qle_bool (ratio * adv) (c * adv)) eqn:E; simpl.
      * apply Qle_bool_iff. apply Qle_bool_iff in E. lra.
      * apply Qle_bool_iff; exact H2.
Qed.

Lemma clipped_surrogate_objective_witness :
  @PPOAgent.actor_objective Toy.torch (Fin (1#5)) Toy.states Toy.actions
    (Vector Toy.old_probs) (Vector (fin_vec [2; -1; 3])) (fin_vec [1#2; 1#2])
  = Ret (Spec.actor_loss (Fin (1#5)) (fin_vec [1#2; 1#2; 1#2]) Toy.old_probs
           (fin_vec [2; -1; 3]))
  /\ nle (clamp (Fin 2) (Fin 1 - Fin (1#5)) (Fin 1 + Fin (1#5)) * Fin 3)%num
         (Fin (1 + (1#5)) * Fin 3)%num = true
  /\ nle (Spec.surrogate (Fin (1#5)) (Fin 2) (Fin 3))
         (Fin (1 + (1#5)) * Fin 3)%num = true.
Proof.
  split.
  - eapply (proj1 clipped_surrogate_objective Toy.torch); reflexivity.
  - apply (proj2 clipped_surrogate_objective (1#5) 2 3).
    + right. reflexivity.
    + reflexivity.
Defined.

(** ** PPOAgent: one optimizer step per network, gradients kept apart *)

Section Isolation.

Context {torch : PPOAgent.Torch}.




Lemma length_returns (gamma : num) (rs : list num) :
  length (Spec.returns gamma rs) = length rs.
Proof. induction rs; simpl; auto. Qed.

Lemma batch_length {A B : Type} (f : A -> py B) (rows : list A)
    (ys : list B) :
  batch f rows = Ret ys -> length ys = length rows.
Proof.
  revert ys. induction rows as [|x rows IH]; simpl; intros ys.
  - intros [= <-]. reflexivity.
  - destruct (f x) as [y|e]; cbn [bind]; [|discriminate].
    destruct (batch f rows) as [ys'|e]; cbn [bind]; [|discriminate].
    intros [= <-]. simpl. rewrite (IH ys'); reflexivity.
Qed.

(** A batch returns when the function returns on every row. *)
Lemma batch_returns {A B : Type} (f : A -> py B) (rows : list A) :
  Forall (fun x => exists y, f x = Ret y) rows ->
  exists ys, batch f rows = Ret ys.
Proof.
  induction 1 as [|x rows [y Hy] _ [ys IH]]; simpl.
  - eauto.
  - rewrite Hy, IH. cbn [bind]. eauto.
Qed.

Lemma batch_In {A B : Type} (f : A -> py B) (rows : list A) (ys : list B) :
  batch f rows = Ret ys ->
  forall y, In y ys -> exists x, In x rows /\ f x = Ret y.
Proof.
  revert ys. induction rows as [|x rows IH]; simpl; intros ys.
  - intros [= <-] y [].
  - destruct (f x) as [y0|e] eqn:E; cbn [bind]; [|discriminate].
    destruct (batch f rows) as [ys'|e]; cbn [bind]; [|discriminate].
    intros [= <-] y [<-|Hin].
    + eauto.
    + destruct (IH ys' eq_refl y Hin) as (x' & Hx' & Hy). eauto.
Qed.

(** On a trajectory of [T <> 1] steps on whose states both networks
    return, whose tensors all have length [T] and whose actions index the
    actor's output, [update] returns the agent after the backpropagation
    block, run on the two losses. *)
Lemma update_returns (a : PPOAgent.t) (states : list (list num))
    (actions : list nat) (rs ops values : list num) (probs : list (list num))
    (g : list num) :
  length states <> 1%nat ->
  length rs = length states ->
  length actions = length states ->
  length ops = length states ->
  batch (PPOAgent.critic_forward (PPOAgent.critic a)) states = Ret values ->
  batch (PPOAgent.actor_forward (PPOAgent.actor a)) states = Ret probs ->
  gather probs actions = Ret g ->
  let advantages := Vector (Spec.advantages (PPOAgent.gamma a) rs values) in
  let returns := Vector (Spec.returns (PPOAgent.gamma a) rs) in
  let f_actor := PPOAgent.actor_objective (PPOAgent.epsilon a) states actions
                   (Vector ops) advantages in
  let f_critic := PPOAgent.critic_objective states returns in
  exists l_actor l_critic,
    f_actor (PPOAgent.actor a) = Ret l_actor
    /\ f_critic (PPOAgent.critic a) = Ret l_critic
    /\ PPOAgent.update a states actions (Vector rs) (Vector ops)
       = Ret (PPOAgent.optimize
                (PPOAgent.Loss l_actor
                   (Some (PPOAgent.actor_autograd f_actor (PPOAgent.actor a)))
                   None)
                (PPOAgent.Loss l_critic None
                   (Some (PPOAgent.critic_autograd f_critic
                            (PPOAgent.critic a))))
                a).
Proof.
  intros HT Hrs Hact Hops Hvals Hprobs Hg advantages returns f_actor f_critic.
  assert (Hv : length values = length states) by exact (batch_length _ _ Hvals).
  assert (Hsq : PPOAgent.critic_values (PPOAgent.critic a) states
                = Ret (Vector values)).
  { unfold PPOAgent.critic_values. rewrite Hvals. cbn [bind].
    f_equal. apply squeeze_vector. congruence. }
  assert (Hadv : length (Spec.advantages (PPOAgent.gamma a) rs values)
                 = length actions).
  { unfold Spec.advantages. rewrite length_zip_with;
      rewrite length_returns; congruence. }
  assert (Ha : f_actor (PPOAgent.actor a)
               = Ret (Spec.actor_loss (PPOAgent.epsilon a) g ops
                        (Spec.advantages (PPOAgent.gamma a) rs values))).
  { unfold f_actor, advantages, PPOAgent.actor_objective, PPOAgent.new_probs.
    rewrite Hprobs. cbn [bind]. rewrite Hg. cbn [bind].
    pose proof (gather_length _ _ Hg).
    apply actor_loss_squeezed; congruence. }
  assert (Hl : exists l, PPOAgent.critic_loss returns (Vector values) = Ret l).
  { unfold returns, PPOAgent.critic_loss.
    rewrite broadcast2_vectors by (rewrite length_returns; congruence).
    cbn [bind]. eauto. }
  destruct Hl as [lc Hl].
  assert (Hc : f_critic (PPOAgent.critic a) = Ret lc).
  { unfold f_critic, PPOAgent.critic_objective. rewrite Hsq. cbn [bind].
    exact Hl. }
  exists (Spec.actor_loss (PPOAgent.epsilon a) g ops
            (Spec.advantages (PPOAgent.gamma a) rs values)), lc.
  split; [exact Ha|]. split; [exact Hc|].
  unfold PPOAgent.update. rewrite Hsq. cbn [bind].
  rewrite compute_advantage_vectors by congruence. cbn [bind].
  fold advantages. fold returns. fold f_actor. fold f_critic.
  rewrite Ha. cbn [bind]. rewrite Hl. reflexivity.
Qed.

End Isolation.




(** ** ActorNetwork: the output is a probability distribution *)

Section Softmax.

Local Open Scope R_scope.

Lemma Rsum_div (l : list R) (s : R) :
  ActorNetwork.Rsum (map (fun a => a / s) l) = ActorNetwork.Rsum l / s.
Proof.
  induction l as [|x l IH]; simpl.
  - unfold Rdiv; ring.
  - rewrite IH. unfold Rdiv; ring.
Qed.

Lemma Rsum_exp_pos (z : list R) :
  z <> [] -> 0 < ActorNetwork.Rsum (map exp z).
Proof.
  intros Hz.
  assert (H : 0 <= ActorNetwork.Rsum (map exp z)).
  { clear Hz. induction z as [|x z IH]; simpl; [lra|].
    pose proof (exp_pos x). lra. }
  destruct z as [|x z]; [congruence|]. simpl in *.
  pose proof (exp_pos x).
  assert (0 <= ActorNetwork.Rsum (map exp z)).
  { clear. induction z as [|y z IH]; simpl; [lra|].
    pose proof (exp_pos y). lra. }
  lra.
Qed.

Lemma softmax_sums_to_one (z : list R) :
  z <> [] -> ActorNetwork.Rsum (ActorNetwork.softmax z) = 1.
Proof.
  intros Hz. unfold ActorNetwork.softmax. rewrite Rsum_div.
  pose proof (Rsum_exp_pos Hz). field. lra.
Qed.

Lemma softmax_positive (z : list R) :
  Forall (fun p => 0 < p) (ActorNetwork.softmax z).
Proof.
  destruct z as [|x z]; [constructor|].
  assert (Hs : 0 < ActorNetwork.Rsum (map exp (x :: z)))
    by (apply Rsum_exp_pos; discriminate).
  unfold ActorNetwork.softmax. apply Forall_map, Forall_map.
  apply Forall_forall. intros y _.
  apply Rdiv_lt_0_compat; [apply exp_pos|exact Hs].
Qed.

Lemma length_softmax (z : list R) :
  length (ActorNetwork.softmax z) = length z.
Proof. unfold ActorNetwork.softmax. rewrite !length_map. reflexivity. Qed.

Lemma linear_returns (n_in n_out : nat) (l : ActorNetwork.Linear)
    (x : list R) :
  ActorNetwork.linear_shape n_in n_out l = true -> length x = n_in ->
  exists y, ActorNetwork.linear l x = Ret y /\ length y = n_out.
Proof.
  unfold ActorNetwork.linear_shape, ActorNetwork.linear. intros H Hx.
  apply andb_true_iff in H as [H Hrows].
  apply andb_true_iff in H as [Hw Hb].
  apply Nat.eqb_eq in Hw, Hb. rewrite Hx, Hrows.
  eexists; split; [reflexivity|].
  rewrite length_zip_with; congruence.
Qed.

Lemma length_relu (l : list R) : length (ActorNetwork.relu l) = length l.
Proof. apply length_map. Qed.

End Softmax.

(** *** C7.  For every state and every value of the parameters, the
    probabilities [forward] returns are positive and, over at least one
    channel, sum to one; on a network of the shapes [__init__] builds and
    a state of its width, [forward] returns one probability per
    channel. *)
Theorem forward_is_distribution (net : ActorNetwork.t) (state : list R) :
  (forall probs,
     ActorNetwork.forward net state = Ret probs ->
     Forall (fun p => (0 < p)%R) probs
     /\ (probs <> [] -> ActorNetwork.Rsum probs = 1%R))
  /\
  (forall n,
     ActorNetwork.shape n net = true ->
     length state = n ->
     exists probs,
       ActorNetwork.forward net state = Ret probs /\ length probs = n).
Proof.
  split.
  - intros probs. unfold ActorNetwork.forward.
    destruct (ActorNetwork.linear (ActorNetwork.fc1 net) state) as [x1|e];
      cbn [bind]; [|discriminate].
    destruct (ActorNetwork.linear (ActorNetwork.fc2 net) _) as [x2|e];
      cbn [bind]; [|discriminate].
    destruct (ActorNetwork.linear (ActorNetwork.fc3 net) _) as [x3|e];
      cbn [bind]; [|discriminate].
    intros [= <-]. split; [apply softmax_positive|].
    intros Hne. apply softmax_sums_to_one. intros ->. apply Hne. reflexivity.
  - intros n Hshape Hlen. unfold ActorNetwork.shape in Hshape.
    apply andb_true_iff in Hshape as [Hshape H3].
    apply andb_true_iff in Hshape as [H1 H2].
    destruct (@linear_returns _ _ _ state H1 Hlen) as (x1 & E1 & L1).
    destruct (@linear_returns _ _ _ (ActorNetwork.relu x1) H2)
      as (x2 & E2 & L2).
    { rewrite length_relu; exact L1. }
    destruct (@linear_returns _ _ _ (ActorNetwork.relu x2) H3)
      as (x3 & E3 & L3).
    { rewrite length_relu; exact L2. }
    unfold ActorNetwork.forward. rewrite E1; cbn [bind].
    rewrite E2; cbn [bind]. rewrite E3; cbn [bind].
    eexists; split; [reflexivity|].
    rewrite length_softmax; exact L3.
Qed.

Lemma forward_is_distribution_witness :
  exists probs,
    ActorNetwork.forward (ActorNetwork.constant_net 2 1 0) [60; 40]%R
      = Ret probs
    /\ length probs = 2%nat
    /\ Forall (fun p => (0 < p)%R) probs
    /\ ActorNetwork.Rsum probs = 1%R.
Proof.
  destruct (forward_is_distribution (ActorNetwork.constant_net 2 1 0)
              [60; 40]%R) as [Hdist Hret].
  destruct (Hret 2%nat) as (probs & Hf & Hlen).
  - vm_compute. reflexivity.
  - reflexivity.
  - destruct (Hdist probs Hf) as [Hpos Hsum].
    exists probs. repeat split; auto.
    apply Hsum. intros ->. discriminate Hlen.
Defined.

(* ================================================================== *)
(** * Part III: further properties of the code *)
(* ================================================================== *)

(** ** MarketingEnv: shapes *)

Lemma np_iadd_shape (a b : list num) :
  (length b = length a \/ length b = 1%nat -> exists s, np_iadd a b = Ret s)
  /\ (length b <> length a -> length b <> 1%nat ->
      np_iadd a b = Raise ValueError).
Proof.
  unfold np_iadd. destruct (length b =? length a)%nat eqn:E.
  - apply Nat.eqb_eq in E. split; [eauto|congruence].
  - apply Nat.eqb_neq in E. split.
    + intros [H|H]; [congruence|].
      destruct b as [|y [|z b]]; try discriminate. eauto.
    + intros _ H1. destruct b as [|y [|z b]]; simpl in *; congruence.
Qed.

(** *** X1.  In an environment with one coefficient per state entry,
    [step] returns exactly when the delta has the length of the state or
    length one; on any other delta it raises [ValueError]. *)
Theorem step_returns_iff_broadcastable
    (env : MarketingEnv.t) (delta : list num) :
  length (MarketingEnv.betas env) = length (MarketingEnv.state env) ->
  ((length delta = length (MarketingEnv.state env)
    \/ length delta = 1%nat)
   <-> exists out, MarketingEnv.step env delta = Ret out)
  /\ (length delta <> length (MarketingEnv.state env) ->
      length delta <> 1%nat ->
      MarketingEnv.step env delta = Raise ValueError).
Proof.
  intros Hlen.
  destruct (np_iadd_shape (MarketingEnv.state env) delta) as [Hok Hbad].
  split; [split|].
  - intros H. destruct (Hok H) as [s1 Hadd].
    destruct (step_returns env delta Hlen Hadd) as (r & _ & Hstep).
    eexists; exact Hstep.
  - intros [out Hout].
    destruct (Nat.eq_dec (length delta) (length (MarketingEnv.state env)));
      [left; assumption|].
    destruct (Nat.eq_dec (length delta) 1); [right; assumption|].
    unfold MarketingEnv.step in Hout. rewrite Hbad in Hout by assumption.
    discriminate.
  - intros H1 H2. unfold MarketingEnv.step. rewrite Hbad by assumption.
    reflexivity.
Qed.

Lemma step_returns_iff_broadcastable_witness :
  let env := MarketingEnv.Build (fin_vec [1; 2; 3]) (Fin 300) 3
               (fin_vec [100; 100; 100]) in
  ((length (fin_vec [7]) = 3%nat \/ length (fin_vec [7]) = 1%nat)
   <-> exists out, MarketingEnv.step env (fin_vec [7]) = Ret out)
  /\ MarketingEnv.step env (fin_vec [7; 7]) = Raise ValueError.
Proof.
  intros env. split.
  - apply (@step_returns_iff_broadcastable env (fin_vec [7])). reflexivity.
  - apply (@step_returns_iff_broadcastable env (fin_vec [7; 7]));
      [reflexivity|discriminate|discriminate].
Defined.

(** *** X2.  The shape of the environment is an invariant: [__init__]
    establishes one coefficient and one state entry per channel, and
    [reset] and [step] keep it; [reset] and [step] change nothing but the
    state. *)
Theorem environment_shape_invariant :
  (forall betas budget draw env,
     dirichlet_sample (length betas) draw = true ->
     MarketingEnv.init betas budget draw = Ret env ->
     MarketingEnv.well_formed env = true)
  /\ (forall env draw env' s,
        MarketingEnv.well_formed env = true ->
        dirichlet_sample (MarketingEnv.num_channels env) draw = true ->
        MarketingEnv.reset env draw = Ret (env', s) ->
        MarketingEnv.well_formed env' = true
        /\ MarketingEnv.betas env' = MarketingEnv.betas env
        /\ MarketingEnv.budget env' = MarketingEnv.budget env
        /\ MarketingEnv.num_channels env' = MarketingEnv.num_channels env)
  /\ (forall env delta env' out,
        MarketingEnv.well_formed env = true ->
        MarketingEnv.step env delta = Ret (env', out) ->
        MarketingEnv.well_formed env' = true
        /\ MarketingEnv.betas env' = MarketingEnv.betas env
        /\ MarketingEnv.budget env' = MarketingEnv.budget env
        /\ MarketingEnv.num_channels env' = MarketingEnv.num_channels env).
Proof.
  split; [|split].
  - intros betas budget draw env. apply init_well_formed.
  - intros env draw env' s Hwf Hd [= <- _].
    unfold dirichlet_sample in Hd.
    apply andb_true_iff in Hd as [Hd _]. apply andb_true_iff in Hd as [Hd _].
    apply Nat.eqb_eq in Hd.
    unfold MarketingEnv.well_formed in *; simpl.
    apply andb_true_iff in Hwf as [Hb _].
    unfold np_mul. rewrite length_map, Hd, Hb, Nat.eqb_refl.
    repeat split.
  - intros env delta env' out Hwf Hstep.
    split; [eapply step_well_formed; eauto|].
    unfold MarketingEnv.step in Hstep.
    destruct (np_iadd (MarketingEnv.state env) delta); cbn [bind] in Hstep;
      [|discriminate].
    destruct (np_dot (MarketingEnv.betas env) _); cbn [bind] in Hstep;
      [|discriminate].
    injection Hstep as <- _. repeat split.
Qed.

Lemma environment_shape_invariant_witness :
  exists env,
    MarketingEnv.init (fin_vec [1; 2]) (Fin 10) (fin_vec [1#2; 1#2]) = Ret env
    /\ MarketingEnv.well_formed env = true.
Proof.
  exists (MarketingEnv.Build (fin_vec [1; 2]) (Fin 10) 2
            (fin_vec [(1#2) * 10; (1#2) * 10])).
  split; [reflexivity|].
  apply (proj1 environment_shape_invariant (fin_vec [1; 2]) (Fin 10)
           (fin_vec [1#2; 1#2])); reflexivity.
Defined.

(** ** MarketingEnv: revenue *)

Lemma np_dot_fin (bs xs : list Q) :
  length bs = length xs ->
  np_dot (fin_vec bs) (fin_vec xs)
  = Ret (Fin (fold_left Qplus (zip_with Qmult bs xs) 0)).
Proof.
  intros H. unfold np_dot. rewrite !length_fin_vec, H, Nat.eqb_refl.
  rewrite (@zip_with_fin nmul Qmult) by reflexivity.
  rewrite fold_left_nadd_fin. reflexivity.
Qed.

Lemma Qdot_bounds (lo hi : Q) (bs xs : list Q) :
  length bs = length xs ->
  Forall (fun beta => lo <= beta /\ beta <= hi) bs ->
  Forall (fun x => 0 <= x) xs ->
  lo * Qsum xs <= Qdot bs xs /\ Qdot bs xs <= hi * Qsum xs.
Proof.
  intros Hlen Hb; revert xs Hlen.
  induction Hb as [|beta bs [Hlo Hhi] _ IH]; intros [|x xs] Hlen Hx;
    simpl in *; try discriminate.
  - unfold Qdot; simpl. lra.
  - inversion Hx as [|? ? Hx0 Hxs]; subst.
    destruct (IH xs) as [IH1 IH2]; auto.
    unfold Qdot, zip_with in *; simpl. split; nra.
Qed.

(** The revenue of a finite allocation whose entries are at least zero
    lies between the budget times the least and times the largest
    coefficient. *)
Lemma revenue_on_simplex (lo hi b : Q) (bs : list Q) (state : list num) :
  Forall (fun beta => lo <= beta /\ beta <= hi) bs ->
  length bs = length state ->
  nonneg state = true -> np_sum state =n= Fin b ->
  exists r, np_dot (fin_vec bs) state = Ret (Fin r)
            /\ lo * b <= r /\ r <= hi * b.
Proof.
  intros Hb Hlen Hnn Hsum.
  destruct (nonneg_sum_finite state Hnn) as (xs & -> & Hxs).
  { destruct (np_sum state); auto; contradiction. }
  rewrite length_fin_vec in Hlen.
  rewrite np_sum_fin in Hsum. simpl in Hsum.
  rewrite fold_left_Qplus in Hsum.
  rewrite np_dot_fin by assumption.
  eexists; split; [reflexivity|].
  rewrite fold_left_Qplus. fold (Qdot bs xs).
  destruct (Qdot_bounds Hlen Hb Hxs) as [H1 H2].
  assert (E : Qsum xs == b) by lra.
  rewrite E in H1, H2. split; lra.
Qed.

(** *** X3.  After a [step] that does not hit the degenerate case, the
    reward lies between [lo * B] and [hi * B] whenever every coefficient
    lies between [lo] and [hi]: no allocation earns more than the whole
    budget in the best channel, or less than in the worst. *)
Theorem step_reward_bounds (env : MarketingEnv.t) (delta s1 : list num)
    (b lo hi : Q) (bs : list Q) :
  MarketingEnv.budget env = Fin b -> 0 <= b ->
  MarketingEnv.betas env = fin_vec bs ->
  Forall (fun beta => lo <= beta /\ beta <= hi) bs ->
  length (MarketingEnv.betas env) = length (MarketingEnv.state env) ->
  forallb is_finite (MarketingEnv.state env) = true ->
  forallb is_finite delta = true ->
  np_iadd (MarketingEnv.state env) delta = Ret s1 ->
  num_eqb (np_sum (np_maximum s1 (Fin 0))) (Fin 0) = false ->
  exists env' r,
    MarketingEnv.step env delta
      = Ret (env', (MarketingEnv.state env', Fin r, false))
    /\ lo * b <= r /\ r <= hi * b.
Proof.
  intros Hb Hpos Hbs Hrange Hlen Hst Hdl Hadd Hsum.
  destruct (step_on_simplex env delta Hb Hpos Hlen Hst Hdl Hadd Hsum)
    as (env' & r & Hstep & Hnn & Hs).
  destruct (step_returns env delta Hlen Hadd) as (r' & Hdot & Hstep').
  set (s3 := np_mul _ (MarketingEnv.budget env)) in *.
  rewrite Hstep' in Hstep. injection Hstep as He _ Hr. subst r' env'.
  simpl in Hnn, Hs. rewrite Hb in Hs.
  destruct (@revenue_on_simplex lo hi b bs s3 Hrange) as (q & Hq & Hbounds);
    auto.
  { rewrite Hbs, length_fin_vec in Hlen.
    unfold s3, np_mul, np_div, np_maximum. rewrite !length_map.
    rewrite (np_iadd_length _ _ Hadd). exact Hlen. }
  rewrite Hbs in Hdot. rewrite Hdot in Hq. injection Hq as ->.
  exists (MarketingEnv.set_state env s3), q.
  split; [exact Hstep'|exact Hbounds].
Qed.

Lemma step_reward_bounds_witness :
  let env := MarketingEnv.Build (fin_vec [1; 2; 3]) (Fin 300) 3
               (fin_vec [100; 100; 100]) in
  exists env' r,
    MarketingEnv.step env (fin_vec [0; -150; 5])
      = Ret (env', (MarketingEnv.state env', Fin r, false))
    /\ 1 * 300 <= r /\ r <= 3 * 300.
Proof.
  intros env.
  apply (@step_reward_bounds env (fin_vec [0; -150; 5])
           (fin_vec [100 + 0; 100 + -150; 100 + 5]) 300 1 3 [1; 2; 3]);
    try reflexivity.
  - unfold Qle; simpl; lia.
  - repeat constructor; unfold Qle; simpl; lia.
Defined.

(** ** MarketingEnv: the deltas of the training loop *)

Lemma setitem_out_of_range (l : list num) (i : nat) (v : num) :
  (length l <= i)%nat -> Driver.setitem l i v = Driver.Fail Driver.IndexError.
Proof.
  revert i; induction l as [|x l IH]; intros i H; simpl in *.
  - reflexivity.
  - destruct i as [|j]; [lia|]. rewrite IH by lia. reflexivity.
Qed.

Lemma setitem_zeros (n a : nat) (u : Q) :
  (a < n)%nat ->
  Driver.setitem (repeat (Fin 0) n) a (Fin u)
  = Driver.Done (fin_vec (Qone_hot n a u)).
Proof.
  revert a; induction n as [|n IH]; intros a H; [lia|].
  destruct a as [|a]; simpl.
  - unfold fin_vec. rewrite map_repeat. reflexivity.
  - rewrite IH by lia. reflexivity.
Qed.

Lemma setitem_zeros_inv (n a : nat) (u : Q) (changes : list num) :
  Driver.setitem (repeat (Fin 0) n) a (Fin u) = Driver.Done changes ->
  (a < n)%nat /\ changes = fin_vec (Qone_hot n a u).
Proof.
  intros H. destruct (Nat.lt_ge_cases a n) as [Hlt|Hge].
  - rewrite setitem_zeros in H by assumption. injection H as <-. auto.
  - rewrite setitem_out_of_range in H by (rewrite repeat_length; exact Hge).
    discriminate.
Qed.

Lemma length_Qone_hot (n a : nat) (u : Q) : length (Qone_hot n a u) = n.
Proof.
  revert a; induction n as [|n IH]; intros [|a]; simpl; auto.
  rewrite repeat_length. reflexivity.
Qed.

Lemma Qsum_zeros (n : nat) : Qsum (repeat 0 n) == 0.
Proof. induction n; simpl; lra. Qed.

Lemma Qdot_zeros (bs : list Q) (n : nat) : Qdot bs (repeat 0 n) == 0.
Proof.
  revert n; induction bs as [|b bs IH]; intros [|n]; unfold Qdot, zip_with;
    simpl; try lra.
  specialize (IH n). unfold Qdot, zip_with in IH. lra.
Qed.

Lemma Qsum_one_hot (n a : nat) (u : Q) :
  (a < n)%nat -> Qsum (Qone_hot n a u) == u.
Proof.
  revert a; induction n as [|n IH]; intros a H; [lia|].
  destruct a as [|a]; simpl.
  - rewrite Qsum_zeros. lra.
  - rewrite IH by lia. lra.
Qed.

Lemma Qdot_one_hot (bs : list Q) (a : nat) (u : Q) :
  (a < length bs)%nat ->
  Qdot bs (Qone_hot (length bs) a u) == nth a bs 0 * u.
Proof.
  revert a; induction bs as [|b bs IH]; intros a H; simpl in *; [lia|].
  destruct a as [|a].
  - pose proof (Qdot_zeros bs (length bs)) as Hz.
    unfold Qdot, zip_with in *; simpl. lra.
  - specialize (IH a). unfold Qdot, zip_with in *; simpl.
    rewrite IH by lia. lra.
Qed.

Lemma Qsum_zip_plus (a b : list Q) :
  length a = length b -> Qsum (zip_with Qplus a b) == Qsum a + Qsum b.
Proof.
  revert b; induction a as [|x a IH]; intros [|y b] H; simpl in *;
    try discriminate; [lra|].
  unfold zip_with in *; simpl. rewrite IH by congruence. lra.
Qed.

Lemma Qdot_zip_plus (bs a b : list Q) :
  length a = length b ->
  Qdot bs (zip_with Qplus a b) == Qdot bs a + Qdot bs b.
Proof.
  revert a b; induction bs as [|c bs IH]; intros [|x a] [|y b] H;
    unfold Qdot, zip_with in *; simpl in *; try discriminate; try lra.
  rewrite IH by congruence. lra.
Qed.

Lemma Qdot_scale (bs xs : list Q) (f : Q -> Q) (c : Q) :
  (forall x, f x == x * c) -> Qdot bs (map f xs) == Qdot bs xs * c.
Proof.
  intros Hf. revert xs; induction bs as [|b bs IH]; intros [|x xs];
    unfold Qdot, zip_with in *; simpl; try lra.
  rewrite IH, Hf. lra.
Qed.

(** Clamping at zero, entry by entry. *)
Lemma np_maximum_clamp (q : list Q) :
  np_maximum (fin_vec q) (Fin 0)
  = fin_vec (map (fun x => if Qle_bool 0 x then x else 0) q).
Proof.
  unfold np_maximum, fin_vec. rewrite !map_map. apply map_ext.
  intros x. unfold nmax; simpl. destruct (Qle_bool 0 x); reflexivity.
Qed.

Lemma Qsum_clamp_ge (q : list Q) :
  Qsum q <= Qsum (map (fun x => if Qle_bool 0 x then x else 0) q).
Proof.
  induction q as [|x q IH]; simpl; [lra|].
  destruct (Qle_bool 0 x) eqn:E; [lra|].
  assert (~ 0 <= x) by (intros H; apply Qle_bool_iff in H; congruence).
  lra.
Qed.

Lemma clamp_nonneg_id (q : list Q) :
  Forall (fun x => 0 <= x) q ->
  map (fun x => if Qle_bool 0 x then x else 0) q = q.
Proof.
  induction 1 as [|x q Hx _ IH]; simpl; auto.
  apply Qle_bool_iff in Hx. rewrite Hx, IH. reflexivity.
Qed.

Lemma np_iadd_one_hot (st : list Q) (a : nat) (u : Q) :
  np_iadd (fin_vec st) (fin_vec (Qone_hot (length st) a u))
  = Ret (fin_vec (zip_with Qplus st (Qone_hot (length st) a u))).
Proof.
  unfold np_iadd. rewrite !length_fin_vec, length_Qone_hot, Nat.eqb_refl.
  rewrite (@zip_with_fin nadd Qplus) by reflexivity. reflexivity.
Qed.

(** A delta with one entry [u], [B + u > 0], keeps the allocation on the
    simplex. *)
Lemma one_hot_step (env : MarketingEnv.t) (b u : Q)
    (action : nat) (changes : list num) :
  MarketingEnv.budget env = Fin b ->
  length (MarketingEnv.betas env) = length (MarketingEnv.state env) ->
  nonneg (MarketingEnv.state env) = true ->
  np_sum (MarketingEnv.state env) =n= Fin b ->
  Driver.setitem (repeat (Fin 0) (length (MarketingEnv.state env)))
    action (Fin u) = Driver.Done changes ->
  0 < b + u ->
  exists env' r,
    MarketingEnv.step env changes
      = Ret (env', (MarketingEnv.state env', r, false))
    /\ nonneg (MarketingEnv.state env') = true
    /\ np_sum (MarketingEnv.state env') =n= Fin b.
Proof.
  intros Hb Hlen Hnn Hsum Hset Hpos.
  destruct (nonneg_sum_finite _ Hnn) as (st & Est & Hst).
  { destruct (np_sum (MarketingEnv.state env)); auto; contradiction. }
  rewrite Est, length_fin_vec in Hset.
  apply setitem_zeros_inv in Hset as [Ha ->].
  rewrite Est, np_sum_fin in Hsum. simpl in Hsum.
  rewrite fold_left_Qplus in Hsum.
  assert (Hb0 : 0 <= b) by (pose proof (Qsum_nonneg Hst); lra).
  assert (Hadd : np_iadd (MarketingEnv.state env)
                   (fin_vec (Qone_hot (length st) action u))
                 = Ret (fin_vec (zip_with Qplus st
                                   (Qone_hot (length st) action u)))).
  { rewrite Est. apply np_iadd_one_hot. }
  assert (Hfin : forall q, forallb is_finite (fin_vec q) = true).
  { intros q. unfold fin_vec. rewrite forallb_forall.
    intros x Hx. apply in_map_iff in Hx as (y & <- & _). reflexivity. }
  assert (Hnd : num_eqb
                  (np_sum (np_maximum
                             (fin_vec (zip_with Qplus st
                                         (Qone_hot (length st) action u)))
                             (Fin 0)))
                  (Fin 0) = false).
  { rewrite np_maximum_clamp, np_sum_fin. simpl.
    apply Qeq_bool_false. rewrite fold_left_Qplus.
    pose proof (Qsum_clamp_ge (zip_with Qplus st
                                 (Qone_hot (length st) action u))) as Hge.
    rewrite Qsum_zip_plus in Hge by (rewrite length_Qone_hot; reflexivity).
    rewrite Qsum_one_hot in Hge by assumption. lra. }
  assert (Hfs : forallb is_finite (MarketingEnv.state env) = true)
    by (rewrite Est; apply Hfin).
  destruct (step_on_simplex env _ Hb Hb0 Hlen Hfs (Hfin _) Hadd Hnd)
    as (env' & r & Hstep & Hnn' & Hsum').
  exists env', r. rewrite Hb in Hsum'. auto.
Qed.

(** *** X4.  A delta built as the training loop builds it (zeros, and
    one entry [u] at the chosen channel) never leads to the degenerate
    case when [B + u > 0]: from a state whose entries are at least zero
    and sum to [B], [step] returns such a state again.  The loop draws
    [u] from [-5] up, so this covers every budget above [5]. *)
Theorem one_hot_step_on_simplex (env : MarketingEnv.t) (b u : Q)
    (action : nat) (changes : list num) :
  MarketingEnv.budget env = Fin b ->
  length (MarketingEnv.betas env) = length (MarketingEnv.state env) ->
  nonneg (MarketingEnv.state env) = true ->
  np_sum (MarketingEnv.state env) =n= Fin b ->
  Driver.setitem (repeat (Fin 0) (length (MarketingEnv.state env)))
    action (Fin u) = Driver.Done changes ->
  0 < b + u ->
  exists env' r,
    MarketingEnv.step env changes
      = Ret (env', (MarketingEnv.state env', r, false))
    /\ nonneg (MarketingEnv.state env') = true
    /\ np_sum (MarketingEnv.state env') =n= Fin b.
Proof.
  intros Hb Hlen Hnn Hsum Hset Hpos.
  destruct (one_hot_step env action Hb Hlen Hnn Hsum Hset Hpos)
    as (env' & r & Hstep & Hnn' & Hsum').
  exists env', r. repeat split; assumption.
Qed.

Lemma one_hot_step_on_simplex_witness :
  let env := MarketingEnv.Build (fin_vec [1; 2; 3]) (Fin 300) 3
               (fin_vec [100; 0; 200]) in
  exists env' r,
    MarketingEnv.step env (fin_vec [0; -5; 0])
      = Ret (env', (MarketingEnv.state env', r, false))
    /\ nonneg (MarketingEnv.state env') = true
    /\ np_sum (MarketingEnv.state env') =n= Fin 300.
Proof.
  intros env.
  apply (@one_hot_step_on_simplex env 300 (-5) 1 (fin_vec [0; -5; 0]));
    try reflexivity.
Defined.

Lemma one_hot_sum_nonneg (st : list Q) (a : nat) (u : Q) :
  Forall (fun x => 0 <= x) st -> 0 <= nth a st 0 + u ->
  Forall (fun x => 0 <= x) (zip_with Qplus st (Qone_hot (length st) a u)).
Proof.
  intros H; revert a; induction H as [|x st Hx Hst IH]; intros a Hu;
    simpl; [constructor|].
  destruct a as [|a]; unfold zip_with in *; simpl in *.
  - constructor; [exact Hu|].
    clear - Hst. induction Hst as [|y st Hy _ IH]; simpl; constructor; auto.
    simpl. lra.
  - constructor; [simpl; lra|]. apply IH. exact Hu.
Qed.

(** *** X5.  Moving budget into or out of one channel, without emptying
    it below zero: with revenue [r0] before the step, coefficient [beta]
    of the channel and change [u], the revenue after the step is
    [(r0 + beta * u) * B / (B + u)].  So revenue does not fall when budget
    moves into a channel whose coefficient is at least the current
    average return [r0 / B], or out of one whose coefficient is at most
    that average. *)
Theorem reallocation_revenue (env : MarketingEnv.t) (b u : Q)
    (bs st : list Q) (action : nat) (changes : list num) :
  MarketingEnv.budget env = Fin b ->
  MarketingEnv.betas env = fin_vec bs ->
  MarketingEnv.state env = fin_vec st ->
  length bs = length st ->
  Forall (fun x => 0 <= x) st -> Qsum st == b ->
  Driver.setitem (repeat (Fin 0) (length st)) action (Fin u)
    = Driver.Done changes ->
  0 <= nth action st 0 + u -> 0 < b + u ->
  exists env' r r0,
    MarketingEnv.step env changes
      = Ret (env', (MarketingEnv.state env', Fin r, false))
    /\ np_dot (MarketingEnv.betas env) (MarketingEnv.state env)
       = Ret (Fin r0)
    /\ r * (b + u) == (r0 + nth action bs 0 * u) * b
    /\ (0 <= u * (nth action bs 0 * b - r0) -> r0 <= r).
Proof.
  intros Hb Hbs Hst Hlen Hnn Hsum Hset Hch Hpos.
  apply setitem_zeros_inv in Hset as [Ha ->].
  set (oh := Qone_hot (length st) action u).
  set (s1 := zip_with Qplus st oh).
  assert (Hs1 : Forall (fun x => 0 <= x) s1)
    by (apply one_hot_sum_nonneg; assumption).
  assert (Hl1 : length s1 = length st).
  { unfold s1, oh. apply length_zip_with. rewrite length_Qone_hot.
    reflexivity. }
  assert (Hadd : np_iadd (MarketingEnv.state env) (fin_vec oh)
                 = Ret (fin_vec s1)).
  { rewrite Hst. apply np_iadd_one_hot. }
  assert (Hl : length (MarketingEnv.betas env)
               = length (MarketingEnv.state env)).
  { rewrite Hbs, Hst, !length_fin_vec. exact Hlen. }
  destruct (step_returns env _ Hl Hadd) as (r & Hdot & Hstep).
  rewrite np_maximum_clamp, clamp_nonneg_id, np_sum_fin, Hb in Hdot, Hstep
    by assumption.
  set (s := fold_left Qplus s1 0) in *.
  assert (Es : s == b + u).
  { unfold s, s1, oh. rewrite fold_left_Qplus, Qsum_zip_plus
      by (rewrite length_Qone_hot; reflexivity).
    rewrite Qsum_one_hot by assumption. lra. }
  assert (Hs0 : ~ s == 0) by lra.
  rewrite (@renormalize_fin s1 s b Hs0) in Hdot, Hstep.
  rewrite Hbs, np_dot_fin in Hdot by (rewrite length_map; congruence).
  injection Hdot as <-.
  eexists (MarketingEnv.set_state env _), _, _.
  split; [exact Hstep|].
  split; [rewrite Hbs, Hst; apply np_dot_fin; exact Hlen|].
  rewrite !fold_left_Qplus.
  fold (Qdot bs st). fold (Qdot bs (map (fun x => x / s * b) s1)).
  assert (E : Qdot bs (map (fun x => x / s * b) s1)
              == (Qdot bs st + nth action bs 0 * u) * (/ s * b)).
  { rewrite (@Qdot_scale bs s1 (fun x => x / s * b) (/ s * b))
      by (intros; field; exact Hs0).
    unfold s1. rewrite Qdot_zip_plus
      by (unfold oh; rewrite length_Qone_hot; reflexivity).
    unfold oh. rewrite <- Hlen, Qdot_one_hot by (rewrite Hlen; exact Ha).
    reflexivity. }
  assert (F : (0 + Qdot bs (map (fun x => x / s * b) s1)) * (b + u)
              == (0 + Qdot bs st + nth action bs 0 * u) * b).
  { rewrite E, Es. field. lra. }
  split; [exact F|].
  intros Hsign. nra.
Qed.

Lemma reallocation_revenue_witness :
  let env := MarketingEnv.Build (fin_vec [1; 2; 3]) (Fin 300) 3
               (fin_vec [100; 100; 100]) in
  exists env' r r0,
    MarketingEnv.step env (fin_vec [0; 0; 5])
      = Ret (env', (MarketingEnv.state env', Fin r, false))
    /\ np_dot (fin_vec [1; 2; 3]) (fin_vec [100; 100; 100]) = Ret (Fin r0)
    /\ r * (300 + 5) == (r0 + 3 * 5) * 300
    /\ (0 <= 5 * (3 * 300 - r0) -> r0 <= r).
Proof.
  intros env.
  apply (@reallocation_revenue env 300 5 [1; 2; 3] [100; 100; 100] 2
           (fin_vec [0; 0; 5])); try reflexivity.
  - repeat constructor; unfold Qle; simpl; lia.
  - unfold Qle; simpl; lia.
Defined.

(** ** PPOAgent: more on [compute_advantage] *)

Lemma combine_firstn_min {A B : Type} (l : list A) (l' : list B) :
  combine l l'
  = combine (firstn (Nat.min (length l) (length l')) l)
            (firstn (Nat.min (length l) (length l')) l').
Proof.
  revert l'; induction l as [|x l IH]; intros [|y l']; simpl; auto.
  f_equal. apply IH.
Qed.

(** *** X6.  When rewards and values differ in length, [compute_advantage]
    raises nothing: [zip] pairs the reversed sequences, so the result is
    that of the last [min(len(rewards), len(values))] entries of each,
    and the earlier entries of the longer one are dropped. *)
Theorem compute_advantage_truncates (gamma : num) (rs vs : list num) :
  let k := Nat.min (length rs) (length vs) in
  let rs' := skipn (length rs - k) rs in
  let vs' := skipn (length vs - k) vs in
  PPOAgent.compute_advantage gamma (Vector rs) (Vector vs)
  = Ret (Vector (Spec.advantages gamma rs' vs'),
         Vector (Spec.returns gamma rs'))
  /\ length (Spec.advantages gamma rs' vs') = k
  /\ length (Spec.returns gamma rs') = k.
Proof.
  intros k rs' vs'.
  assert (Hr : length rs' = k).
  { unfold rs'. rewrite length_skipn. unfold k. lia. }
  assert (Hv : length vs' = k).
  { unfold vs'. rewrite length_skipn. unfold k. lia. }
  split; [|split].
  - rewrite <- (@compute_advantage_vectors gamma rs' vs') by congruence.
    unfold PPOAgent.compute_advantage; simpl.
    rewrite (combine_firstn_min (rev rs) (rev vs)).
    rewrite !length_rev. fold k. rewrite !firstn_rev.
    fold rs'. fold vs'. reflexivity.
  - unfold Spec.advantages. rewrite length_zip_with;
      rewrite length_returns; congruence.
  - rewrite length_returns. exact Hr.
Qed.

Lemma discounted_sum_shift (g : Q) (l : list Q) (k : nat) :
  Qsum (map (fun p => g ^ Z.of_nat (fst p) * snd p)
            (combine (seq (S k) (length l)) l))
  == g * Qsum (map (fun p => g ^ Z.of_nat (fst p) * snd p)
                   (combine (seq k (length l)) l)).
Proof.
  revert k; induction l as [|x l IH]; intros k; simpl; [ring|].
  rewrite IH.
  assert (E : g ^ Z.of_nat (S k) == g * g ^ Z.of_nat k).
  { rewrite Znat.Nat2Z.inj_succ. unfold Z.succ.
    rewrite Z.add_comm, Qpower.Qpower_plus' by lia. reflexivity. }
  rewrite E. ring.
Qed.

Lemma discounted_sum_cons (g r : Q) (l : list Q) :
  discounted_sum g (r :: l) == r + g * discounted_sum g l.
Proof.
  unfold discounted_sum. simpl. rewrite discounted_sum_shift. ring.
Qed.

(** The returns of finite rewards are finite; each is the discounted sum
    of the rewards from its step on. *)
Lemma returns_discounted (g : Q) (rs : list Q) :
  exists qs,
    Spec.returns (Fin g) (fin_vec rs) = fin_vec qs
    /\ length qs = length rs
    /\ forall t, (t < length rs)%nat ->
                 nth t qs 0 == discounted_sum g (skipn t rs).
Proof.
  induction rs as [|r rs (qs & E & Hl & Hn)].
  - exists []; repeat split; auto. simpl; intros; lia.
  - simpl. rewrite E.
    exists ((r + g * hd 0 qs) :: qs). split; [|split].
    + destruct qs; reflexivity.
    + simpl; congruence.
    + intros [|t] Ht; simpl in *.
      * rewrite discounted_sum_cons.
        destruct rs as [|r' rs'].
        { destruct qs; [|discriminate]. simpl. unfold discounted_sum. simpl.
          ring. }
        { destruct qs as [|q qs]; [discriminate|]. simpl.
          specialize (Hn 0%nat). simpl in Hn. rewrite Hn by lia.
          reflexivity. }
      * apply Hn. lia.
Qed.

(** *** X7.  With finite rewards and a finite discount, the return
    [compute_advantage] gives step [t] is the discounted sum
    [r_t + gamma r_(t+1) + gamma^2 r_(t+2) + ...] of the rewards up to
    the end of the trajectory: nothing beyond the episode is added. *)
Theorem returns_are_discounted_sums (g : Q) (rs : list Q) (vs : list num)
    (t : nat) :
  length rs = length vs -> (t < length rs)%nat ->
  exists advantages returns,
    PPOAgent.compute_advantage (Fin g) (Vector (fin_vec rs)) (Vector vs)
    = Ret (Vector advantages, Vector returns)
    /\ nth t returns NaN =n= Fin (discounted_sum g (skipn t rs)).
Proof.
  intros Hlen Ht.
  rewrite compute_advantage_vectors by (rewrite length_fin_vec; exact Hlen).
  do 2 eexists; split; [reflexivity|].
  destruct (returns_discounted g rs) as (qs & -> & Hl & Hn).
  unfold fin_vec.
  rewrite (nth_indep _ NaN (Fin 0)) by (rewrite length_map; lia).
  rewrite (map_nth Fin qs 0 t). simpl. apply Hn. exact Ht.
Qed.

Lemma returns_are_discounted_sums_witness :
  exists advantages returns,
    PPOAgent.compute_advantage (Fin (1#2))
      (Vector (fin_vec [3; 5; 2])) (Vector (fin_vec [1; 1; 1]))
    = Ret (Vector advantages, Vector returns)
    /\ nth 1 returns NaN =n= Fin (discounted_sum (1#2) [5; 2]).
Proof.
  apply (@returns_are_discounted_sums (1#2) [3; 5; 2] (fin_vec [1; 1; 1]) 1);
    [reflexivity|apply le_n_S, le_n_S, le_0_n].
Defined.

(** *** X8.  On a trajectory of a single step whose state the critic
    accepts, [update] raises [TypeError], whatever the agent and the other
    arguments: [squeeze] turns the single critic value into a 0-d tensor,
    which [zip] cannot iterate; neither optimizer has taken a step.  When
    the critic raises on the state, [update] raises the critic's error. *)
Theorem update_single_step_raises (torch : PPOAgent.Torch) (a : PPOAgent.t)
    (state : list num) (actions : list nat) (rewards old_probs : tensor) :
  (forall v,
     PPOAgent.critic_forward (PPOAgent.critic a) state = Ret v ->
     PPOAgent.update a [state] actions rewards old_probs = Raise TypeError)
  /\ (forall e,
        PPOAgent.critic_forward (PPOAgent.critic a) state = Raise e ->
        PPOAgent.update a [state] actions rewards old_probs = Raise e).
Proof.
  unfold PPOAgent.update, PPOAgent.critic_values, PPOAgent.compute_advantage.
  split.
  - intros v Hv. simpl. rewrite Hv. simpl.
    destruct (iter (reversed rewards)) as [rs|e] eqn:E; simpl.
    + reflexivity.
    + destruct rewards; simpl in E; [injection E as <-|discriminate].
      reflexivity.
  - intros e He. simpl. rewrite He. reflexivity.
Qed.

Lemma update_single_step_raises_witness :
  @PPOAgent.update Toy.torch Toy.agent [fin_vec [60; 40]] [1%nat]
    (Vector (fin_vec [3])) (Vector (fin_vec [1#2]))
  = Raise TypeError
  /\ @PPOAgent.update Toy.torch Toy.agent [fin_vec [60; 40; 20]] [1%nat]
       (Vector (fin_vec [3])) (Vector (fin_vec [1#2]))
     = Raise RuntimeError.
Proof.
  split.
  - apply (proj1 (@update_single_step_raises Toy.torch Toy.agent
                    (fin_vec [60; 40]) [1%nat] (Vector (fin_vec [3]))
                    (Vector (fin_vec [1#2]))) (Fin 1)).
    reflexivity.
  - apply (proj2 (@update_single_step_raises Toy.torch Toy.agent
                    (fin_vec [60; 40; 20]) [1%nat] (Vector (fin_vec [3]))
                    (Vector (fin_vec [1#2]))) RuntimeError).
    reflexivity.
Defined.

(** ** PPOAgent: more on [update] *)

Lemma gather_sound (probs : list (list num)) (actions : list nat)
    (g : list num) :
  gather probs actions = Ret g ->
  (length actions <= length probs)%nat
  /\ forall t row a,
       nth_error probs t = Some row -> nth_error actions t = Some a ->
       (a < length row)%nat /\ nth_error g t = nth_error row a.
Proof.
  revert probs g; induction actions as [|a actions IH]; intros probs g; simpl.
  - intros _. split; [lia|]. intros [|t] row a' _ H; discriminate.
  - destruct probs as [|row probs]; [discriminate|].
    destruct (nth_error row a) as [p|] eqn:Ep; [|discriminate].
    destruct (gather probs actions) as [rest|e] eqn:E; cbn [bind];
      [|discriminate].
    intros [= <-]. destruct (IH _ _ E) as [Hl Hn]. split; [simpl; lia|].
    intros [|t] row' a' Hr Ha; simpl in *.
    + injection Hr as <-. injection Ha as <-. split; [|congruence].
      apply nth_error_Some. congruence.
    + eapply Hn; eauto.
Qed.

Lemma gather_complete (probs : list (list num)) (actions : list nat) :
  (length actions <= length probs)%nat ->
  (forall t row a,
     nth_error probs t = Some row -> nth_error actions t = Some a ->
     (a < length row)%nat) ->
  exists g, gather probs actions = Ret g.
Proof.
  revert probs; induction actions as [|a actions IH]; intros probs Hl Hn;
    simpl; [eauto|].
  destruct probs as [|row probs]; simpl in Hl; [lia|].
  destruct (nth_error row a) as [p|] eqn:Ep.
  - destruct (IH probs) as [rest ->]; [lia| |cbn [bind]; eauto].
    intros t row' a' Hr Ha. apply (Hn (S t) row' a'); assumption.
  - apply nth_error_None in Ep.
    specialize (Hn 0%nat row a eq_refl eq_refl). lia.
Qed.

Lemma gather_raises (probs : list (list num)) (actions : list nat) (e : exn) :
  gather probs actions = Raise e -> e = RuntimeError.
Proof.
  revert probs; induction actions as [|a actions IH]; intros probs; simpl;
    [discriminate|].
  destruct probs as [|row probs]; [congruence|].
  destruct (nth_error row a); [|congruence].
  destruct (gather probs actions) as [rest|e'] eqn:E; cbn [bind];
    [discriminate|].
  intros [= <-]. eapply IH; eauto.
Qed.

Lemma compute_advantage_of_vectors (gamma : num) (rs vs : list num) :
  exists advantages returns,
    PPOAgent.compute_advantage gamma (Vector rs) (Vector vs)
    = Ret (Vector advantages, Vector returns).
Proof.
  unfold PPOAgent.compute_advantage; simpl.
  destruct (fold_left _ _ _) as [[G advantages] returns]. eauto.
Qed.

(** *** X9.  [gather] returns exactly when there are no more actions
    than rows and every action indexes its row; it then picks, row by
    row, the entry at the action.  Otherwise it raises [RuntimeError],
    and so does [update] on a trajectory of [T <> 1] steps on whose
    states both networks return. *)
Theorem gather_bounds :
  (forall probs actions,
     (exists g, gather probs actions = Ret g)
     <-> ((length actions <= length probs)%nat
          /\ forall t row a,
               nth_error probs t = Some row ->
               nth_error actions t = Some a -> (a < length row)%nat))
  /\ (forall probs actions g,
        gather probs actions = Ret g ->
        length g = length actions
        /\ forall t row a,
             nth_error probs t = Some row ->
             nth_error actions t = Some a ->
             nth_error g t = nth_error row a)
  /\ (forall probs actions e,
        gather probs actions = Raise e -> e = RuntimeError)
  /\ (forall (torch : PPOAgent.Torch) (a : PPOAgent.t) states actions rs
             old_probs values probs,
        length states <> 1%nat ->
        batch (PPOAgent.critic_forward (PPOAgent.critic a)) states
        = Ret values ->
        batch (PPOAgent.actor_forward (PPOAgent.actor a)) states
        = Ret probs ->
        gather probs actions = Raise RuntimeError ->
        PPOAgent.update a states actions (Vector rs) old_probs
        = Raise RuntimeError).
Proof.
  split; [|split; [|split]].
  - intros probs actions. split.
    + intros [g Hg]. destruct (gather_sound _ _ Hg) as [Hl Hn].
      split; [exact Hl|]. intros t row a Hr Ha. apply (Hn t row a Hr Ha).
    + intros [Hl Hn]. apply gather_complete; assumption.
  - intros probs actions g Hg. split; [eapply gather_length; eauto|].
    intros t row a Hr Ha.
    apply (proj2 (gather_sound _ _ Hg) t row a Hr Ha).
  - apply gather_raises.
  - intros torch a states actions rs old_probs values probs HT Hv Hp Hg.
    unfold PPOAgent.update, PPOAgent.critic_values.
    rewrite Hv. cbn [bind].
    rewrite squeeze_vector by (rewrite (batch_length _ _ Hv); exact HT).
    destruct (compute_advantage_of_vectors (PPOAgent.gamma a) rs values)
      as (adv & ret & ->).
    cbn [bind]. unfold PPOAgent.actor_objective, PPOAgent.new_probs.
    rewrite Hp. cbn [bind]. rewrite Hg. reflexivity.
Qed.

Lemma gather_bounds_witness :
  @PPOAgent.update Toy.torch Toy.agent Toy.states [0%nat; 2%nat; 1%nat]
    (Vector Toy.rewards) (Vector Toy.old_probs)
  = Raise RuntimeError.
Proof.
  eapply (proj2 (proj2 (proj2 gather_bounds)) Toy.torch);
    [discriminate|reflexivity|reflexivity|reflexivity].
Defined.

Lemma of_nat_nonzero (n : nat) :
  n <> 0%nat -> ~ inject_Z (Z.of_nat n) == 0.
Proof.
  intros Hn H. unfold Qeq in H; simpl in H. lia.
Qed.

Lemma of_nat_positive (n : nat) : n <> 0%nat -> 0 < inject_Z (Z.of_nat n).
Proof. intros Hn. unfold Qlt; simpl. lia. Qed.

Lemma Qsum_squares (l : list Q) :
  0 <= Qsum (map (fun x => x * x) l)
  /\ (Qsum (map (fun x => x * x) l) == 0 <-> Forall (fun x => x == 0) l).
Proof.
  induction l as [|x l [IH0 IH]]; simpl.
  - split; [lra|]. split; [constructor|reflexivity].
  - split; [nra|]. split.
    + intros H. assert (x * x == 0 /\ Qsum (map (fun x => x * x) l) == 0)
        as [Hx Hl] by (split; nra).
      constructor; [nra|]. apply IH; exact Hl.
    + intros H. inversion H as [|? ? Hx Hl]; subst.
      apply IH in Hl. rewrite Hl, Hx. ring.
Qed.

(** *** X10.  On finite returns and values of the same positive length,
    the critic loss is a finite number, at least zero, and zero exactly
    when every value equals its return. *)
Theorem critic_loss_nonneg (rets vals : list Q) :
  length rets = length vals -> rets <> [] ->
  exists l,
    PPOAgent.critic_loss (Vector (fin_vec rets)) (Vector (fin_vec vals))
    = Ret (Fin l)
    /\ 0 <= l
    /\ (l == 0 <-> Forall2 Qeq rets vals).
Proof.
  intros Hlen Hne. unfold PPOAgent.critic_loss.
  rewrite broadcast2_vectors by (rewrite !length_fin_vec; exact Hlen).
  cbn [bind tmap tmean].
  rewrite (@zip_with_fin nsub Qminus) by reflexivity.
  assert (E : map (fun x => (x * x)%num) (fin_vec (zip_with Qminus rets vals))
              = fin_vec (map (fun x => x * x) (zip_with Qminus rets vals))).
  { unfold fin_vec. rewrite !map_map. reflexivity. }
  rewrite E, np_sum_fin, length_fin_vec, length_map.
  set (d := zip_with Qminus rets vals).
  assert (Hd : length d = length rets) by (apply length_zip_with; exact Hlen).
  assert (Hn : length d <> 0%nat).
  { rewrite Hd. destruct rets; simpl; congruence. }
  unfold of_nat; simpl.
  rewrite (Qeq_bool_false (of_nat_nonzero Hn)).
  eexists; split; [reflexivity|].
  pose proof (of_nat_positive Hn) as Hpos.
  destruct (Qsum_squares d) as [H0 Hz].
  rewrite fold_left_Qplus.
  assert (Hiff : Forall (fun x => x == 0) d <-> Forall2 Qeq rets vals).
  { unfold d. clear - Hlen. revert vals Hlen.
    induction rets as [|r rets IH]; intros [|v vals] Hlen; simpl in *;
      try discriminate.
    - split; constructor.
    - unfold zip_with in *; simpl. split; intros H; inversion H; subst.
      + constructor; [simpl in *; lra|]. apply IH; [congruence|assumption].
      + constructor; [simpl; lra|]. apply IH; [congruence|assumption]. }
  split.
  - apply Qle_shift_div_l; [exact Hpos|]. lra.
  - rewrite <- Hiff, <- Hz. split; intros H.
    + assert (F : (0 + Qsum (map (fun x => x * x) d))
                  == (0 + Qsum (map (fun x => x * x) d))
                     / inject_Z (Z.of_nat (length d))
                     * inject_Z (Z.of_nat (length d)))
        by (field; apply of_nat_nonzero; exact Hn).
      rewrite H in F. lra.
    + rewrite H. field. apply of_nat_nonzero; exact Hn.
Qed.

Lemma critic_loss_nonneg_witness :
  exists l,
    PPOAgent.critic_loss (Vector (fin_vec [3; 5; 2]))
      (Vector (fin_vec [1; 5; 2]))
    = Ret (Fin l)
    /\ 0 <= l
    /\ (l == 0 <-> Forall2 Qeq [3; 5; 2] [1; 5; 2]).
Proof.
  apply (@critic_loss_nonneg [3; 5; 2] [1; 5; 2]);
    [reflexivity|discriminate].
Defined.

Lemma actor_loss_vectors (eps : num) (ps qs advs : list num) :
  length ps = length qs -> length qs = length advs ->
  PPOAgent.actor_loss eps (Vector ps) (Vector qs) (Vector advs)
  = Ret (Spec.actor_loss eps ps qs advs).
Proof.
  intros H1 H2. unfold PPOAgent.actor_loss.
  rewrite broadcast2_vectors by assumption. cbn [bind].
  assert (Hr : length (zip_with ndiv ps qs) = length advs).
  { rewrite length_zip_with; congruence. }
  rewrite broadcast2_vectors by assumption. cbn [bind]. cbn [tmap].
  rewrite broadcast2_vectors by (rewrite length_map; assumption).
  cbn [bind].
  rewrite broadcast2_vectors
    by (rewrite !length_zip_with; rewrite ?length_map; congruence).
  cbn [bind]. rewrite surrogates_vectorised by assumption.
  reflexivity.
Qed.

Lemma ndiv_compat_l (x y n : Q) :
  x == y -> (Fin x / Fin n)%num =n= (Fin y / Fin n)%num.
Proof.
  intros H; simpl. destruct (Qeq_bool n 0).
  - rewrite H. apply num_eq_refl.
  - simpl. rewrite H. reflexivity.
Qed.

Lemma nneg_compat (a b : num) : a =n= b -> nneg a =n= nneg b.
Proof.
  destruct a, b; simpl; auto. intros H; rewrite H; reflexivity.
Qed.

(** With the new probabilities equal to the old ones the ratio is one,
    the clip does nothing, and each surrogate is the advantage. *)
Lemma surrogates_on_policy (eps : Q) (ps advs : list Q) :
  0 <= eps -> Forall (fun p => ~ p == 0) ps -> length ps = length advs ->
  vec_eq (Spec.surrogates (Fin eps) (fin_vec ps) (fin_vec ps) (fin_vec advs))
         (fin_vec advs).
Proof.
  intros Heps Hps; revert advs.
  induction Hps as [|p ps Hp _ IH]; intros [|a advs] Hlen; simpl in *;
    try discriminate; constructor.
  - rewrite (Qeq_bool_false Hp).
    assert (Hr : p / p == 1) by (field; exact Hp).
    unfold Spec.surrogate, clamp, nmax, nmin; simpl.
    assert (E1 : Qle_bool (1 - eps) (p / p) = true)
      by (apply Qle_bool_iff; lra).
    assert (E2 : Qle_bool (p / p) (1 + eps) = true)
      by (apply Qle_bool_iff; lra).
    rewrite E1; simpl. rewrite E2; simpl.
    assert (E3 : Qle_bool (p / p * a) (p / p * a) = true)
      by (apply Qle_bool_iff; lra).
    rewrite E3. simpl. rewrite Hr. ring.
  - apply IH. congruence.
Qed.

(** *** X11.  On policy, that is with new probabilities equal to the old
    (non-zero) ones, and with a clip parameter that is not negative, the
    actor loss is minus the mean of the advantages: the clipping does not
    take part in the loss of a trajectory the current policy has just
    produced. *)
Theorem actor_loss_on_policy (eps : Q) (ps advs : list Q) :
  0 <= eps -> Forall (fun p => ~ p == 0) ps -> length ps = length advs ->
  exists l,
    PPOAgent.actor_loss (Fin eps) (Vector (fin_vec ps)) (Vector (fin_vec ps))
      (Vector (fin_vec advs)) = Ret l
    /\ l =n= nneg (tmean (Vector (fin_vec advs))).
Proof.
  intros Heps Hps Hlen.
  rewrite actor_loss_vectors by (rewrite !length_fin_vec; congruence).
  eexists; split; [reflexivity|].
  pose proof (@surrogates_on_policy eps ps advs Heps Hps Hlen) as Hv.
  unfold Spec.actor_loss, Spec.mean. apply nneg_compat. cbn [tmean].
  unfold np_sum. rewrite <- (Forall2_length Hv).
  pose proof (@fold_left_nadd_compat _ _ (Fin 0) (Fin 0) Hv (num_eq_refl _))
    as Hs.
  rewrite fold_left_nadd_fin in *.
  destruct (fold_left nadd (Spec.surrogates _ _ _ _) (Fin 0)) as [x| | |];
    simpl in Hs; try contradiction.
  apply ndiv_compat_l. exact Hs.
Qed.

Lemma actor_loss_on_policy_witness :
  exists l,
    PPOAgent.actor_loss (Fin (1#5)) (Vector (fin_vec [1#2; 1#4; 1#2]))
      (Vector (fin_vec [1#2; 1#4; 1#2])) (Vector (fin_vec [2; -1; 3])) = Ret l
    /\ l =n= nneg (tmean (Vector (fin_vec [2; -1; 3]))).
Proof.
  apply (@actor_loss_on_policy (1#5) [1#2; 1#4; 1#2] [2; -1; 3]).
  - unfold Qle; simpl; lia.
  - repeat constructor; unfold Qeq; simpl; lia.
  - reflexivity.
Defined.

(** The backpropagation block on an actor loss that reaches the actor
    only and a critic loss that reaches the critic only: the result does
    not depend on the gradients the agent held, and the agent ends up
    holding the two gradients of this call. *)
Lemma optimize_fresh_gradients (torch : PPOAgent.Torch)
    (a : PPOAgent.t) (va vc : num) (g1 : PPOAgent.ActorG)
    (g2 : PPOAgent.CriticG) (ga : option PPOAgent.ActorG)
    (gc : option PPOAgent.CriticG) :
  let la := PPOAgent.Loss va (Some g1) None in
  let lc := PPOAgent.Loss vc None (Some g2) in
  PPOAgent.optimize la lc
    (PPOAgent.Build (PPOAgent.actor a) ga (PPOAgent.actor_optimizer a)
       (PPOAgent.critic a) gc (PPOAgent.critic_optimizer a)
       (PPOAgent.gamma a) (PPOAgent.epsilon a))
  = PPOAgent.optimize la lc a
  /\ PPOAgent.actor_grad (PPOAgent.optimize la lc a) = Some g1
  /\ PPOAgent.critic_grad (PPOAgent.optimize la lc a) = Some g2.
Proof.
  intros la lc. destruct a.
  unfold PPOAgent.optimize, PPOAgent.critic_step, PPOAgent.actor_step; simpl.
  destruct (PPOAgent.actor_optimizer_step _ _ _); simpl.
  destruct (PPOAgent.critic_optimizer_step _ _ _); simpl.
  repeat split.
Qed.

(** *** X12.  [update] does not read the gradients left by earlier
    calls: started with any other content of the two [.grad] buffers it
    returns the same agent, whose buffers hold the gradient of the actor
    loss and the gradient of the critic loss of this call. *)
Theorem update_ignores_stale_gradients (torch : PPOAgent.Torch)
    (a a' : PPOAgent.t) (states : list (list num)) (actions : list nat)
    (rewards old_probs : tensor) (ga : option PPOAgent.ActorG)
    (gc : option PPOAgent.CriticG) :
  PPOAgent.update a states actions rewards old_probs = Ret a' ->
  PPOAgent.update
    (PPOAgent.Build (PPOAgent.actor a) ga (PPOAgent.actor_optimizer a)
       (PPOAgent.critic a) gc (PPOAgent.critic_optimizer a)
       (PPOAgent.gamma a) (PPOAgent.epsilon a))
    states actions rewards old_probs = Ret a'
  /\ exists values advantages returns,
       PPOAgent.critic_values (PPOAgent.critic a) states = Ret values
       /\ PPOAgent.compute_advantage (PPOAgent.gamma a) rewards values
          = Ret (advantages, returns)
       /\ PPOAgent.actor_grad a'
          = Some (PPOAgent.actor_autograd
                    (PPOAgent.actor_objective (PPOAgent.epsilon a) states
                       actions old_probs advantages)
                    (PPOAgent.actor a))
       /\ PPOAgent.critic_grad a'
          = Some (PPOAgent.critic_autograd
                    (PPOAgent.critic_objective states returns)
                    (PPOAgent.critic a)).
Proof.
  unfold PPOAgent.update. simpl.
  destruct (PPOAgent.critic_values _ _) as [values|e];
    cbn [bind]; [|discriminate].
  destruct (PPOAgent.compute_advantage _ _ _) as [[adv ret]|e] eqn:Eadv;
    cbn [bind]; [|discriminate].
  destruct (PPOAgent.actor_objective _ _ _ _ _ _) as [l_actor|e];
    cbn [bind]; [|discriminate].
  destruct (PPOAgent.critic_loss _ _) as [l_critic|e];
    cbn [bind]; [|discriminate].
  intros [= <-].
  destruct (optimize_fresh_gradients a l_actor l_critic
              (PPOAgent.actor_autograd
                 (PPOAgent.actor_objective (PPOAgent.epsilon a) states
                    actions old_probs adv) (PPOAgent.actor a))
              (PPOAgent.critic_autograd
                 (PPOAgent.critic_objective states ret) (PPOAgent.critic a))
              ga gc) as (H1 & H2 & H3).
  split; [rewrite H1; reflexivity|].
  exists values, adv, ret. repeat split; assumption.
Qed.

Lemma update_ignores_stale_gradients_witness :
  exists a',
    @PPOAgent.update Toy.torch Toy.agent Toy.states Toy.actions
      (Vector Toy.rewards) (Vector Toy.old_probs) = Ret a'
    /\ @PPOAgent.update Toy.torch
         (@PPOAgent.Build Toy.torch (fin_vec [1#2; 1#2])
            (Some (fin_vec [7; 7]))
            (Fin (1#10)) (Fin 1) (Some (Fin 9)) (Fin (1#10))
            (Fin (99#100)) (Fin (1#5)))
         Toy.states Toy.actions (Vector Toy.rewards) (Vector Toy.old_probs)
       = Ret a'.
Proof.
  destruct (@update_returns Toy.torch Toy.agent Toy.states Toy.actions
              Toy.rewards Toy.old_probs (fin_vec [1; 1; 1])
              [fin_vec [1#2; 1#2]; fin_vec [1#2; 1#2]; fin_vec [1#2; 1#2]]
              (fin_vec [1#2; 1#2; 1#2]))
    as (la & lc & _ & _ & Hu); try reflexivity; [discriminate|].
  eexists. split; [exact Hu|].
  apply (@update_ignores_stale_gradients Toy.torch Toy.agent _ Toy.states
           Toy.actions (Vector Toy.rewards) (Vector Toy.old_probs)
           (Some (fin_vec [7; 7])) (Some (Fin 9)) Hu).
Defined.

(** ** The networks: widths and an invariance *)

Section Networks.

Local Open Scope R_scope.

Lemma linear_raises (n_in n_out : nat) (l : ActorNetwork.Linear)
    (x : list R) :
  ActorNetwork.linear_shape n_in n_out l = true ->
  n_out <> 0%nat -> length x <> n_in ->
  ActorNetwork.linear l x = Raise RuntimeError.
Proof.
  unfold ActorNetwork.linear_shape, ActorNetwork.linear. intros H Hn Hx.
  apply andb_true_iff in H as [H Hrows].
  apply andb_true_iff in H as [Hw _]. apply Nat.eqb_eq in Hw.
  destruct (ActorNetwork.weight l) as [|row rows]; simpl in *; [congruence|].
  apply andb_true_iff in Hrows as [Hrow _]. apply Nat.eqb_eq in Hrow.
  assert (E : (length row =? length x)%nat = false)
    by (apply Nat.eqb_neq; congruence).
  rewrite E. reflexivity.
Qed.

Lemma zip_with_shift (rows : list (list R)) (x bias : list R) (c : R) :
  zip_with (fun row b => ActorNetwork.Rdot row x + b) rows
           (map (fun b => b + c) bias)
  = map (fun y => y + c)
        (zip_with (fun row b => ActorNetwork.Rdot row x + b) rows bias).
Proof.
  revert bias; induction rows as [|row rows IH]; intros [|b bias];
    unfold zip_with in *; simpl; auto.
  rewrite IH. f_equal. ring.
Qed.

Lemma Rsum_scale (l : list R) (c : R) :
  ActorNetwork.Rsum (map (fun a => a * c) l) = ActorNetwork.Rsum l * c.
Proof. induction l as [|x l IH]; simpl; [ring|]. rewrite IH. ring. Qed.

(** The softmax does not change when one constant is added to every
    logit. *)
Lemma softmax_shift (z : list R) (c : R) :
  ActorNetwork.softmax (map (fun y => y + c) z) = ActorNetwork.softmax z.
Proof.
  destruct z as [|y0 z0]; [reflexivity|]. set (z := y0 :: z0).
  assert (Hs : 0 < ActorNetwork.Rsum (map exp z))
    by (apply Rsum_exp_pos; discriminate).
  unfold ActorNetwork.softmax.
  assert (E : map exp (map (fun y => y + c) z)
              = map (fun a => a * exp c) (map exp z)).
  { rewrite !map_map. apply map_ext. intros y. apply exp_plus. }
  rewrite E, Rsum_scale, !map_map. apply map_ext. intros y.
  pose proof (exp_pos c). field. split; lra.
Qed.

End Networks.

(** *** X13.  Both networks check the width of their input: with the
    shapes of [__init__(state_dim)], [forward] raises [RuntimeError] on
    a state of any other width, and on a state of width [state_dim] the
    critic returns exactly one value. *)
Theorem networks_check_width (n : nat) (state : list R) :
  (forall net,
     CriticNetwork.shape n net = true ->
     (length state = n ->
      exists v, CriticNetwork.forward net state = Ret [v])
     /\ (length state <> n ->
         CriticNetwork.forward net state = Raise RuntimeError))
  /\ (forall net,
        ActorNetwork.shape n net = true ->
        length state <> n ->
        ActorNetwork.forward net state = Raise RuntimeError).
Proof.
  assert (H64 : ActorNetwork.hidden <> 0%nat) by discriminate.
  split.
  - intros net Hshape. unfold CriticNetwork.shape in Hshape.
    apply andb_true_iff in Hshape as [Hshape H3].
    apply andb_true_iff in Hshape as [H1 H2].
    unfold CriticNetwork.forward. split.
    + intros Hlen.
      destruct (@linear_returns _ _ _ state H1 Hlen) as (x1 & E1 & L1).
      destruct (@linear_returns _ _ _ (ActorNetwork.relu x1) H2)
        as (x2 & E2 & L2).
      { rewrite length_relu; exact L1. }
      destruct (@linear_returns _ _ _ (ActorNetwork.relu x2) H3)
        as (x3 & E3 & L3).
      { rewrite length_relu; exact L2. }
      rewrite E1; cbn [bind]. rewrite E2; cbn [bind]. rewrite E3.
      destruct x3 as [|v [|w x3]]; try discriminate. eauto.
    + intros Hlen. rewrite (@linear_raises _ _ _ state H1 H64 Hlen).
      reflexivity.
  - intros net Hshape Hlen. unfold ActorNetwork.shape in Hshape.
    apply andb_true_iff in Hshape as [Hshape _].
    apply andb_true_iff in Hshape as [H1 _].
    unfold ActorNetwork.forward.
    rewrite (@linear_raises _ _ _ state H1 H64 Hlen). reflexivity.
Qed.

Lemma networks_check_width_witness :
  (exists v,
     CriticNetwork.forward (CriticNetwork.constant_net 2 1 0) [60; 40]%R
     = Ret [v])
  /\ CriticNetwork.forward (CriticNetwork.constant_net 2 1 0) [60]%R
     = Raise RuntimeError
  /\ ActorNetwork.forward (ActorNetwork.constant_net 2 1 0) [60; 40; 1]%R
     = Raise RuntimeError.
Proof.
  split; [|split].
  - apply (proj1 (networks_check_width 2 [60; 40]%R)
             (CriticNetwork.constant_net 2 1 0));
      [vm_compute; reflexivity|reflexivity].
  - apply (proj1 (networks_check_width 2 [60]%R)
             (CriticNetwork.constant_net 2 1 0));
      [vm_compute; reflexivity|discriminate].
  - apply (proj2 (networks_check_width 2 [60; 40; 1]%R)
             (ActorNetwork.constant_net 2 1 0));
      [vm_compute; reflexivity|discriminate].
Defined.

(** *** X14.  The actor's output does not change when one constant is
    added to every bias of its last layer: the softmax removes a common
    shift of the logits, so the probabilities depend on the differences
    between the logits only. *)
Theorem forward_ignores_output_shift (net : ActorNetwork.t) (c : R)
    (state : list R) :
  ActorNetwork.forward (shift_output_bias c net) state
  = ActorNetwork.forward net state.
Proof.
  unfold ActorNetwork.forward, shift_output_bias; simpl.
  destruct (ActorNetwork.linear (ActorNetwork.fc1 net) state) as [x1|e];
    cbn [bind]; [|reflexivity].
  destruct (ActorNetwork.linear (ActorNetwork.fc2 net) _) as [x2|e];
    cbn [bind]; [|reflexivity].
  unfold ActorNetwork.linear; simpl.
  destruct (forallb _ _); cbn [bind]; [|reflexivity].
  rewrite zip_with_shift, softmax_shift. reflexivity.
Qed.

(** ** The report on the return on investment *)

Lemma Qsum_repeat (c : Q) (n : nat) :
  Qsum (repeat c n) == inject_Z (Z.of_nat n) * c.
Proof.
  induction n as [|n IH].
  - simpl. ring.
  - rewrite Znat.Nat2Z.inj_succ. unfold Z.succ. rewrite inject_Z_plus.
    simpl repeat. simpl Qsum. rewrite IH. ring.
Qed.

Lemma Qdot_repeat (bs : list Q) (c : Q) :
  Qdot bs (repeat c (length bs)) == Qsum bs * c.
Proof.
  induction bs as [|b bs IH]; unfold Qdot, zip_with in *; simpl; [ring|].
  rewrite IH. ring.
Qed.

(** The three numbers of the report, for finite coefficients and a
    finite allocation with one entry per coefficient. *)
Lemma report_values (bs xs : list Q) :
  bs <> [] -> length bs = length xs ->
  exists i o,
    Driver.report (fin_vec bs) (fin_vec xs)
    = Driver.Done (Fin i, Fin o, Fin (o - i))
    /\ i == (Qsum bs / inject_Z (Z.of_nat (length bs)) - 1) * 100
    /\ o == (Qdot bs xs / 1000000000 - 1) * 100.
Proof.
  intros Hne Hlen.
  assert (Hn : length bs <> 0%nat) by (destruct bs; simpl; congruence).
  unfold Driver.report. rewrite length_fin_vec.
  destruct (length bs) as [|n'] eqn:En; [congruence|]. rewrite <- En in *.
  pose proof (of_nat_nonzero Hn) as Hn0.
  unfold Driver.default_budget, of_nat. cbn [ndiv].
  rewrite (Qeq_bool_false Hn0).
  set (c := 1000000000 / inject_Z (Z.of_nat (length bs))).
  assert (Er : repeat (Fin c) (length bs) = fin_vec (repeat c (length bs))).
  { unfold fin_vec. rewrite map_repeat. reflexivity. }
  rewrite Er, !np_dot_fin, np_sum_fin by (rewrite ?repeat_length; auto).
  cbn [Driver.call Driver.and_then].
  set (tb := fold_left Qplus (repeat c (length bs)) 0).
  assert (Etb : tb == 1000000000).
  { unfold tb. rewrite fold_left_Qplus, Qsum_repeat. unfold c. field.
    exact Hn0. }
  assert (Htb : ~ tb == 0) by (rewrite Etb; discriminate).
  unfold Driver.roi. cbn [nsub ndiv nmul]. rewrite (Qeq_bool_false Htb).
  cbn [nmul]. do 2 eexists. split; [reflexivity|].
  rewrite !fold_left_Qplus.
  fold (Qdot bs (repeat c (length bs))). fold (Qdot bs xs).
  rewrite Qdot_repeat, Etb. unfold c. split; field; exact Hn0.
Qed.

(** *** X15.  The initial ROI the report prints is
    [(mean(betas) - 1) * 100]: it is fixed by the coefficients alone, and
    depends neither on the budget the report divides among the channels
    nor on the trained allocation.  The printed increase is the
    difference of the two ROIs. *)
Theorem report_initial_roi (bs xs : list Q) :
  bs <> [] -> length bs = length xs ->
  exists i o,
    Driver.report (fin_vec bs) (fin_vec xs)
    = Driver.Done (Fin i, Fin o, Fin (o - i))
    /\ i == (Qsum bs / inject_Z (Z.of_nat (length bs)) - 1) * 100.
Proof.
  intros Hne Hlen.
  destruct (@report_values bs xs Hne Hlen) as (i & o & H & Hi & _). eauto.
Qed.

Lemma report_initial_roi_witness :
  exists i o,
    Driver.report
      (fin_vec [2; 3; 3#2; 5#2; 7#2; 2; 1; 9#5; 11#5])
      (fin_vec [1; 2; 3; 4; 5; 6; 7; 8; 9])
    = Driver.Done (Fin i, Fin o, Fin (o - i))
    /\ i == (Qsum [2; 3; 3#2; 5#2; 7#2; 2; 1; 9#5; 11#5] / inject_Z 9 - 1)
            * 100.
Proof.
  apply (@report_initial_roi [2; 3; 3#2; 5#2; 7#2; 2; 1; 9#5; 11#5]
           [1; 2; 3; 4; 5; 6; 7; 8; 9]); [discriminate|reflexivity].
Defined.

(** *** X16.  For an allocation of the default budget whose entries are
    at least zero, the optimized ROI lies between [(lo - 1) * 100] and
    [(hi - 1) * 100] whenever every coefficient lies between [lo] and
    [hi]; and the printed increase is at least zero exactly when the
    allocation earns at least the mean coefficient times the budget. *)
Theorem report_optimized_roi_bounds (lo hi : Q) (bs xs : list Q) :
  bs <> [] -> length bs = length xs ->
  Forall (fun beta => lo <= beta /\ beta <= hi) bs ->
  Forall (fun x => 0 <= x) xs -> Qsum xs == 1000000000 ->
  exists i o,
    Driver.report (fin_vec bs) (fin_vec xs)
    = Driver.Done (Fin i, Fin o, Fin (o - i))
    /\ (lo - 1) * 100 <= o /\ o <= (hi - 1) * 100
    /\ (0 <= o - i
        <-> Qsum bs / inject_Z (Z.of_nat (length bs)) * 1000000000
            <= Qdot bs xs).
Proof.
  intros Hne Hlen Hb Hx Hsum.
  destruct (@report_values bs xs Hne Hlen) as (i & o & H & Hi & Ho).
  destruct (Qdot_bounds Hlen Hb Hx) as [H1 H2]. rewrite Hsum in H1, H2.
  exists i, o. split; [exact H|].
  assert (Eo : o == Qdot bs xs * (1 # 10000000) - 100)
    by (rewrite Ho; field).
  repeat split; try (rewrite Eo; lra); rewrite Hi, Eo; intros; lra.
Qed.

Lemma report_optimized_roi_bounds_witness :
  exists i o,
    Driver.report (fin_vec [2; 3]) (fin_vec [0; 1000000000])
    = Driver.Done (Fin i, Fin o, Fin (o - i))
    /\ (2 - 1) * 100 <= o /\ o <= (3 - 1) * 100
    /\ (0 <= o - i
        <-> Qsum [2; 3] / inject_Z (Z.of_nat 2) * 1000000000
            <= Qdot [2; 3] [0; 1000000000]).
Proof.
  apply (@report_optimized_roi_bounds 2 3 [2; 3] [0; 1000000000]);
    try reflexivity; try discriminate.
  - repeat constructor; unfold Qle; simpl; lia.
  - repeat constructor; unfold Qle; simpl; lia.
Defined.

(** *** X17.  The report fails in two cases only: with no coefficient
    at all the division of the budget by [len(betas)] raises
    [ZeroDivisionError], and with an allocation whose length differs from
    the number of coefficients the dot product raises [ValueError]. *)
Theorem report_failures (betas optimized : list num) :
  (betas = [] ->
   Driver.report betas optimized = Driver.Fail Driver.ZeroDivisionError)
  /\ (betas <> [] -> length betas <> length optimized ->
      Driver.report betas optimized
      = Driver.Fail (Driver.Call ValueError))
  /\ (betas <> [] -> length betas = length optimized ->
      exists out, Driver.report betas optimized = Driver.Done out).
Proof.
  split; [|split].
  - intros ->. reflexivity.
  - intros Hne Hlen. unfold Driver.report.
    destruct (length betas) as [|n] eqn:En.
    { destruct betas; [congruence|discriminate]. }
    rewrite <- En in *. unfold np_dot at 1.
    rewrite repeat_length, Nat.eqb_refl. cbn [Driver.call Driver.and_then].
    unfold np_dot. apply Nat.eqb_neq in Hlen. rewrite Hlen. reflexivity.
  - intros Hne Hlen. unfold Driver.report.
    destruct (length betas) as [|n] eqn:En.
    { destruct betas; [congruence|discriminate]. }
    rewrite <- En in *. unfold np_dot.
    rewrite repeat_length, Nat.eqb_refl. cbn [Driver.call Driver.and_then].
    rewrite Hlen, Nat.eqb_refl. cbn [Driver.call Driver.and_then]. eauto.
Qed.

Lemma report_failures_witness :
  Driver.report [] [] = Driver.Fail Driver.ZeroDivisionError
  /\ Driver.report (fin_vec [2; 3]) (fin_vec [1; 2; 3])
     = Driver.Fail (Driver.Call ValueError).
Proof.
  split.
  - apply (proj1 (report_failures [] [])). reflexivity.
  - apply (proj1 (proj2 (report_failures (fin_vec [2; 3])
                           (fin_vec [1; 2; 3])))); discriminate.
Defined.

(** ** The training cell *)

Lemma step_frame (env env' : MarketingEnv.t) (delta : list num)
    (out : list num * num * bool) :
  MarketingEnv.step env delta = Ret (env', out) ->
  MarketingEnv.betas env' = MarketingEnv.betas env
  /\ MarketingEnv.budget env' = MarketingEnv.budget env
  /\ MarketingEnv.num_channels env' = MarketingEnv.num_channels env
  /\ length (MarketingEnv.state env') = length (MarketingEnv.state env).
Proof.
  unfold MarketingEnv.step.
  destruct (np_iadd (MarketingEnv.state env) delta) as [s1|e] eqn:E1;
    cbn [bind]; [|discriminate].
  destruct (np_dot (MarketingEnv.betas env) _) as [r|e];
    cbn [bind]; [|discriminate].
  intros [= <- _]. simpl. repeat split.
  unfold np_mul, np_div, np_maximum. rewrite !length_map.
  apply (np_iadd_length _ _ E1).
Qed.

Lemma oracle_step_ok_inv (n k : nat) (u : num) :
  Driver.oracle_step_ok n k u = true ->
  (k < n)%nat /\ exists q, u = Fin q /\ -5 <= q /\ q <= 5.
Proof.
  unfold Driver.oracle_step_ok. intros H.
  apply andb_true_iff in H as [H H5]. apply andb_true_iff in H as [H Hm5].
  apply andb_true_iff in H as [Hk Hf]. apply Nat.ltb_lt in Hk.
  destruct u as [q| | |]; try discriminate. simpl in *.
  apply Qle_bool_iff in H5, Hm5. eauto.
Qed.

Lemma step_reward_dot (env env' : MarketingEnv.t) (delta s : list num)
    (r : num) (d : bool) :
  MarketingEnv.step env delta = Ret (env', (s, r, d)) ->
  np_dot (MarketingEnv.betas env) (MarketingEnv.state env') = Ret r
  /\ s = MarketingEnv.state env'.
Proof.
  unfold MarketingEnv.step.
  destruct (np_iadd (MarketingEnv.state env) delta) as [s1|e];
    cbn [bind]; [|discriminate].
  destruct (np_dot (MarketingEnv.betas env) _) as [r'|e] eqn:E;
    cbn [bind]; [|discriminate].
  intros [= <- <- <- _]. simpl. auto.
Qed.

Section TrainingProofs.

Context {torch : PPOAgent.Torch}.
Variable betas : list num.
Variable o : Driver.oracle.
Hypothesis Hpolicy : policy_ok torch (length betas).
Hypothesis Horacle : oracle_ok (length betas) o.

(** One step of the rollout neither raises nor leaves the simplex; its
    reward, the revenue of the new allocation, is added to the total. *)
Lemma rollout_step_ok (agent : PPOAgent.t) (e t n : nat)
    (env : MarketingEnv.t) (tr : Driver.trajectory) :
  training_env betas env -> collected (length betas) n tr ->
  exists env' tr' r,
    Driver.rollout_step betas agent o e (env, MarketingEnv.state env, tr) t
    = Driver.Done (env', MarketingEnv.state env', tr')
    /\ training_env betas env'
    /\ collected (length betas) (S n) tr'
    /\ Driver.total_reward tr' = (Driver.total_reward tr + r)%num
    /\ np_dot betas (MarketingEnv.state env') = Ret r.
Proof.
  intros (Hbetas & Hbud & Hnum & Hlen & Hnn & Hsum)
         (Hs & Ha & Hr & Hp & Hact & Hwid).
  destruct (proj1 (Hpolicy (MarketingEnv.state env) Hlen)
              (PPOAgent.actor agent)) as (probs & Hfw & Hacc & Hpl).
  destruct Horacle as [_ Hstep].
  destruct (oracle_step_ok_inv _ _ _ (Hstep e t)) as (Hk & u & Hu & Hu5 & _).
  unfold Driver.rollout_step. rewrite Hfw.
  cbn [Driver.call Driver.and_then].
  unfold Driver.multinomial. rewrite Hacc, Hu.
  cbn [Driver.and_then].
  pose proof (setitem_zeros u Hk) as Hset. rewrite Hset.
  cbn [Driver.and_then].
  destruct (@one_hot_step env 1000000000 u (Driver.choice o e t)
              (fin_vec (Qone_hot (length betas) (Driver.choice o e t) u)))
    as (env' & r & Hst & Hnn' & Hsum'); auto.
  { rewrite Hbetas, Hlen. reflexivity. }
  { rewrite Hlen. exact Hset. }
  { lra. }
  rewrite Hst. cbn [Driver.call Driver.and_then].
  unfold Driver.getitem.
  destruct (nth_error _ (Driver.choice o e t)) as [p|] eqn:Ep.
  2:{ apply nth_error_None in Ep. lia. }
  cbn [Driver.and_then].
  destruct (step_frame _ _ Hst) as (F1 & F2 & F3 & F4).
  destruct (step_reward_dot _ _ Hst) as [Hdot _]. rewrite Hbetas in Hdot.
  do 3 eexists. split; [reflexivity|]. split; [|split; [|split]].
  - unfold training_env. rewrite F1, F2, F3, F4. repeat split; auto.
  - unfold collected; simpl. rewrite !length_app, Hs, Ha, Hr, Hp. simpl.
    repeat split; try lia.
    + apply Forall_app. split; [exact Hact|].
      constructor; [exact Hk|constructor].
    + apply Forall_app. split; [exact Hwid|].
      constructor; [exact Hlen|constructor].
  - reflexivity.
  - exact Hdot.
Qed.

(** The revenue of an allocation of the training cell. *)
Lemma reward_in_range (lo hi : Q) (bs : list Q) (env : MarketingEnv.t)
    (r : num) :
  betas = fin_vec bs ->
  Forall (fun beta => lo <= beta /\ beta <= hi) bs ->
  training_env betas env ->
  np_dot betas (MarketingEnv.state env) = Ret r ->
  exists q, r = Fin q /\ lo * 1000000000 <= q /\ q <= hi * 1000000000.
Proof.
  intros Hbs Hb (_ & _ & _ & Hlen & Hnn & Hsum) Hdot.
  destruct (@revenue_on_simplex lo hi 1000000000 bs
              (MarketingEnv.state env) Hb) as (q & Hq & Hbounds); auto.
  { rewrite Hlen, Hbs. symmetry. apply length_fin_vec. }
  rewrite Hbs in Hdot. rewrite Hdot in Hq. injection Hq as ->. eauto.
Qed.

Lemma rollout_ok (agent : PPOAgent.t) (e : nat) (ts : list nat) :
  forall (n : nat) (env : MarketingEnv.t) (tr : Driver.trajectory),
    training_env betas env -> collected (length betas) n tr ->
    exists env' tr',
      Driver.for_each (Driver.rollout_step betas agent o e) ts
        (env, MarketingEnv.state env, tr)
      = Driver.Done (env', MarketingEnv.state env', tr')
      /\ training_env betas env'
      /\ collected (length betas) (n + length ts) tr'
      /\ forall lo hi bs q0,
           betas = fin_vec bs ->
           Forall (fun beta => lo <= beta /\ beta <= hi) bs ->
           Driver.total_reward tr = Fin q0 ->
           exists q,
             Driver.total_reward tr' = Fin q
             /\ q0 + inject_Z (Z.of_nat (length ts)) * (lo * 1000000000) <= q
             /\ q <= q0 + inject_Z (Z.of_nat (length ts)) * (hi * 1000000000).
Proof.
  induction ts as [|t ts IH]; intros n env tr Henv Htr.
  - exists env, tr. simpl. rewrite Nat.add_0_r.
    split; [reflexivity|]. split; [exact Henv|]. split; [exact Htr|].
    intros lo hi bs q0 _ _ Hq.
    exists q0. split; [exact Hq|]. unfold inject_Z; simpl. lra.
  - destruct (rollout_step_ok agent e t Henv Htr)
      as (env1 & tr1 & r & E1 & H1 & C1 & T1 & D1).
    destruct (IH (S n) env1 tr1 H1 C1) as (env2 & tr2 & E2 & H2 & C2 & B2).
    exists env2, tr2. cbn [Driver.for_each]. rewrite E1.
    cbn [Driver.and_then]. rewrite E2.
    replace (n + length (t :: ts))%nat with (S n + length ts)%nat
      by (simpl; lia).
    split; [reflexivity|]. split; [exact H2|]. split; [exact C2|].
    intros lo hi bs q0 Hbs Hb Hq.
    destruct (reward_in_range Hbs Hb H1 D1) as (q1 & -> & Hlo & Hhi).
    rewrite Hq in T1. simpl in T1.
    destruct (B2 lo hi bs (q0 + q1) Hbs Hb T1) as (q & Hq' & L & U).
    exists q. split; [exact Hq'|].
    cbn [length]. rewrite Znat.Nat2Z.inj_succ. unfold Z.succ.
    rewrite inject_Z_plus.
    assert (E : inject_Z 1 == 1) by reflexivity. rewrite E. split; lra.
Qed.

(** [reset] puts any environment of the training cell back on the
    simplex. *)
Lemma reset_training_env (env : MarketingEnv.t) (draw : list num) :
  MarketingEnv.betas env = betas ->
  MarketingEnv.budget env = Driver.default_budget ->
  MarketingEnv.num_channels env = length betas ->
  (1 <= length betas)%nat ->
  dirichlet_sample (length betas) draw = true ->
  exists env',
    MarketingEnv.reset env draw = Ret (env', MarketingEnv.state env')
    /\ training_env betas env'.
Proof.
  intros Hbetas Hbud Hnum Hpos Hd.
  destruct (@reset_on_simplex env draw 1000000000 Hbud)
    as (env' & s & Hreset & -> & Hnn & Hsum).
  { discriminate. }
  { rewrite Hnum. exact Hpos. }
  { rewrite Hnum. exact Hd. }
  exists env'. split; [exact Hreset|].
  unfold MarketingEnv.reset in Hreset. injection Hreset as <-.
  unfold training_env; simpl. rewrite Hbud in *.
  repeat split; auto.
  unfold dirichlet_sample in Hd.
  apply andb_true_iff in Hd as [Hd _]. apply andb_true_iff in Hd as [Hd _].
  apply Nat.eqb_eq in Hd. unfold np_mul. rewrite length_map. exact Hd.
Qed.

(** The generators can only keep their contracts when there is a
    channel to choose. *)
Lemma channels_positive : (1 <= length betas)%nat.
Proof.
  destruct Horacle as [_ Hstep].
  destruct (oracle_step_ok_inv _ _ _ (Hstep 0%nat 0%nat)) as [Hk _]. lia.
Qed.

(** Both networks return on the states of a rollout, and its actions
    index the rows the actor returns. *)
Lemma gather_after_rollout (agent : PPOAgent.t) (n : nat)
    (tr : Driver.trajectory) :
  collected (length betas) n tr ->
  exists values probs g,
    batch (PPOAgent.critic_forward (PPOAgent.critic agent)) (Driver.states tr)
    = Ret values
    /\ batch (PPOAgent.actor_forward (PPOAgent.actor agent))
         (Driver.states tr) = Ret probs
    /\ gather probs (Driver.actions tr) = Ret g.
Proof.
  intros (Hs & Ha & _ & _ & Hact & Hwid).
  destruct (batch_returns (PPOAgent.critic_forward (PPOAgent.critic agent))
              (rows := Driver.states tr)) as [values Hv].
  { eapply Forall_impl; [|exact Hwid]. intros s Hlen.
    apply (proj2 (Hpolicy s Hlen)). }
  destruct (batch_returns (PPOAgent.actor_forward (PPOAgent.actor agent))
              (rows := Driver.states tr)) as [probs Hp].
  { eapply Forall_impl; [|exact Hwid]. intros s Hlen.
    destruct (proj1 (Hpolicy s Hlen) (PPOAgent.actor agent))
      as (row & Hrow & _). eauto. }
  assert (Hg : exists g, gather probs (Driver.actions tr) = Ret g).
  { apply gather_complete.
    - rewrite (batch_length _ _ Hp). lia.
    - intros t row a Hrow Hnth.
      apply nth_error_In in Hrow.
      destruct (batch_In _ _ Hp row Hrow) as (s & Hin & Hfw).
      rewrite Forall_forall in Hwid.
      destruct (proj1 (Hpolicy s (Hwid s Hin)) (PPOAgent.actor agent))
        as (row' & Hrow' & _ & Hlen).
      rewrite Hrow' in Hfw. injection Hfw as <-. rewrite Hlen.
      rewrite Forall_forall in Hact. apply Hact.
      eapply nth_error_In; eauto. }
  destruct Hg as [g Hg]. exists values, probs, g. auto.
Qed.

(** One episode neither raises nor leaves the simplex; it prints a line
    when its number is a multiple of 100, and the total it prints is the
    revenue of ten allocations. *)
Lemma episode_ok (env : MarketingEnv.t) (agent : PPOAgent.t)
    (printed : list (nat * num)) (e : nat) :
  training_env betas env ->
  exists env' agent' printed',
    Driver.episode_body betas o (env, agent, printed) e
    = Driver.Done (env', agent', printed')
    /\ training_env betas env'
    /\ length printed'
       = (length printed + if (e mod 100 =? 0)%nat then 1 else 0)%nat
    /\ forall lo hi bs,
         betas = fin_vec bs ->
         Forall (fun beta => lo <= beta /\ beta <= hi) bs ->
         printed_within (10 * (lo * 1000000000)) (10 * (hi * 1000000000))
           printed ->
         printed_within (10 * (lo * 1000000000)) (10 * (hi * 1000000000))
           printed'.
Proof.
  intros (Hbetas & Hbud & Hnum & _).
  destruct (@reset_training_env env (Driver.dirichlet_draw o e))
    as (env1 & E1 & H1); auto.
  { apply channels_positive. }
  { apply Horacle. }
  assert (C0 : collected (length betas) 0 Driver.empty_trajectory).
  { unfold collected; simpl. repeat split; constructor. }
  destruct (@rollout_ok agent e (seq 0 Driver.horizon) 0 env1 _ H1 C0)
    as (env2 & tr & E2 & H2 & C2 & B2).
  rewrite length_seq in C2, B2. simpl in C2.
  destruct (gather_after_rollout agent C2) as (values & probs & g & Hv & Hpr & Hg).
  destruct C2 as (Cs & Ca & Cr & Cp & _).
  destruct (@update_returns torch agent (Driver.states tr)
              (Driver.actions tr) (Driver.rewards tr) (Driver.old_probs tr)
              values probs g)
    as (la & lc & _ & _ & Hu); try congruence.
  { rewrite Cs. discriminate. }
  unfold Driver.episode_body. rewrite E1. cbn [Driver.call Driver.and_then].
  rewrite E2. cbn [Driver.and_then]. rewrite Hu.
  cbn [Driver.call Driver.and_then].
  do 3 eexists. split; [reflexivity|]. split; [exact H2|]. split.
  - destruct (e mod 100 =? 0)%nat; [rewrite length_app; simpl|]; lia.
  - intros lo hi bs Hbs Hb Hp.
    destruct (e mod 100 =? 0)%nat; [|exact Hp].
    apply Forall_app. split; [exact Hp|]. constructor; [|constructor].
    destruct (B2 lo hi bs 0 Hbs Hb eq_refl) as (q & Hq & L & U).
    exists q. split; [exact Hq|].
    assert (E : inject_Z (Z.of_nat Driver.horizon) == 10) by reflexivity.
    rewrite E in L, U. split; lra.
Qed.

Lemma episodes_ok (es : list nat) :
  forall (env : MarketingEnv.t) (agent : PPOAgent.t)
         (printed : list (nat * num)),
    training_env betas env ->
    exists env' agent' printed',
      Driver.for_each (Driver.episode_body betas o) es (env, agent, printed)
      = Driver.Done (env', agent', printed')
      /\ training_env betas env'
      /\ length printed'
         = (length printed
            + length (filter (fun e => (e mod 100 =? 0)%nat) es))%nat
      /\ forall lo hi bs,
           betas = fin_vec bs ->
           Forall (fun beta => lo <= beta /\ beta <= hi) bs ->
           printed_within (10 * (lo * 1000000000)) (10 * (hi * 1000000000))
             printed ->
           printed_within (10 * (lo * 1000000000)) (10 * (hi * 1000000000))
             printed'.
Proof.
  induction es as [|e es IH]; intros env agent printed Henv.
  - exists env, agent, printed. simpl. rewrite Nat.add_0_r. auto.
  - destruct (episode_ok agent printed e Henv)
      as (env1 & agent1 & printed1 & E1 & H1 & L1 & P1).
    destruct (IH env1 agent1 printed1 H1)
      as (env2 & agent2 & printed2 & E2 & H2 & L2 & P2).
    exists env2, agent2, printed2. cbn [Driver.for_each]. rewrite E1.
    cbn [Driver.and_then]. rewrite E2. split; [reflexivity|].
    split; [exact H2|]. split.
    + rewrite L2, L1. cbn [filter].
      destruct (e mod 100 =? 0)%nat; simpl; lia.
    + intros lo hi bs Hbs Hb Hp. eapply P2; eauto.
Qed.

End TrainingProofs.

(** *** X18.  The training cell runs to its end: when both networks
    return on every state of one entry per channel, the actor returning
    acceptable weights, one per channel, and the generators keep their
    contracts (Dirichlet samples on the simplex, sampled indices below
    the number of channels, magnitudes from [-5] to [5]), no step, no
    [update] and no indexing raises in any of the 2000 episodes of 10
    steps; the final allocation has entries at least zero that sum to
    the default budget, and 20 lines have been printed. *)
Theorem training_completes (torch : PPOAgent.Torch) (betas : list num)
    (init_draw : list num) (agent : PPOAgent.t) (o : Driver.oracle) :
  policy_ok torch (length betas) ->
  oracle_ok (length betas) o ->
  dirichlet_sample (length betas) init_draw = true ->
  exists env agent' printed,
    Driver.train betas init_draw agent o = Driver.Done (env, agent', printed)
    /\ nonneg (MarketingEnv.state env) = true
    /\ np_sum (MarketingEnv.state env) =n= Driver.default_budget
    /\ MarketingEnv.betas env = betas
    /\ length printed = 20%nat.
Proof.
  intros Hpolicy Horacle Hinit. unfold Driver.train.
  pose proof (@channels_positive betas o Horacle) as Hpos.
  destruct (@reset_training_env betas
              (MarketingEnv.Build betas Driver.default_budget (length betas) [])
              init_draw)
    as (env0 & E0 & H0); auto.
  assert (Ei : MarketingEnv.init betas Driver.default_budget init_draw
               = Ret env0).
  { unfold MarketingEnv.init. rewrite E0. reflexivity. }
  rewrite Ei. cbn [Driver.call Driver.and_then].
  destruct (@episodes_ok torch betas o Hpolicy Horacle
              (seq 0 Driver.num_episodes) env0 agent [] H0)
    as (env & agent' & printed & E & H & L & _).
  exists env, agent', printed. split; [exact E|].
  destruct H as (Hb & _ & _ & _ & Hnn & Hsum).
  split; [exact Hnn|]. split; [exact Hsum|]. split; [exact Hb|].
  rewrite L. vm_compute. reflexivity.
Qed.

Lemma training_completes_witness :
  exists env agent' printed,
    @Driver.train Uniform.torch (fin_vec [2; 3]) (fin_vec [1#2; 1#2])
      Uniform.agent Uniform.oracle
    = Driver.Done (env, agent', printed)
    /\ nonneg (MarketingEnv.state env) = true
    /\ np_sum (MarketingEnv.state env) =n= Driver.default_budget
    /\ MarketingEnv.betas env = fin_vec [2; 3]
    /\ length printed = 20%nat.
Proof.
  apply (@training_completes Uniform.torch (fin_vec [2; 3])
           (fin_vec [1#2; 1#2]) Uniform.agent Uniform.oracle).
  - intros s Hs. simpl. unfold Toy.on_width. simpl in Hs. rewrite Hs.
    split; intros; eexists; repeat split.
  - split; intros; reflexivity.
  - reflexivity.
Defined.

(** *** X19.  Under the same conditions, with finite coefficients that
    all lie between [lo] and [hi], every total revenue the training cell
    prints is the revenue of ten allocations of the default budget: it
    lies between [10 * lo * B] and [10 * hi * B]. *)
Theorem printed_totals_in_range (torch : PPOAgent.Torch) (bs : list Q)
    (lo hi : Q) (init_draw : list num) (agent : PPOAgent.t)
    (o : Driver.oracle) :
  policy_ok torch (length bs) ->
  oracle_ok (length bs) o ->
  dirichlet_sample (length bs) init_draw = true ->
  Forall (fun beta => lo <= beta /\ beta <= hi) bs ->
  exists env agent' printed,
    Driver.train (fin_vec bs) init_draw agent o
    = Driver.Done (env, agent', printed)
    /\ printed_within (10 * (lo * 1000000000)) (10 * (hi * 1000000000))
         printed.
Proof.
  intros Hpolicy Horacle Hinit Hb. unfold Driver.train.
  rewrite <- (length_fin_vec bs) in Hpolicy, Horacle, Hinit.
  pose proof (@channels_positive (fin_vec bs) o Horacle) as Hpos.
  destruct (@reset_training_env (fin_vec bs)
              (MarketingEnv.Build (fin_vec bs) Driver.default_budget
                 (length (fin_vec bs)) [])
              init_draw)
    as (env0 & E0 & H0); auto.
  assert (Ei : MarketingEnv.init (fin_vec bs) Driver.default_budget init_draw
               = Ret env0).
  { unfold MarketingEnv.init. rewrite E0. reflexivity. }
  rewrite Ei. cbn [Driver.call Driver.and_then].
  destruct (@episodes_ok torch (fin_vec bs) o Hpolicy Horacle
              (seq 0 Driver.num_episodes) env0 agent [] H0)
    as (env & agent' & printed & E & _ & _ & P).
  exists env, agent', printed. split; [exact E|].
  apply (P lo hi bs eq_refl Hb). constructor.
Qed.

Lemma printed_totals_in_range_witness :
  exists env agent' printed,
    @Driver.train Uniform.torch (fin_vec [2; 3]) (fin_vec [1#2; 1#2])
      Uniform.agent Uniform.oracle
    = Driver.Done (env, agent', printed)
    /\ printed_within (10 * (2 * 1000000000)) (10 * (3 * 1000000000))
         printed.
Proof.
  apply (@printed_totals_in_range Uniform.torch [2; 3] 2 3
           (fin_vec [1#2; 1#2]) Uniform.agent Uniform.oracle).
  - intros s Hs. simpl. unfold Toy.on_width. simpl in Hs. rewrite Hs.
    split; intros; eexists; repeat split.
  - split; intros; reflexivity.
  - reflexivity.
  - repeat constructor; unfold Qle; simpl; lia.
Defined.
